(** * Derivation-path templates and fair script enumeration

    A shallow embedding of [descriptors.py]: the [Path] template, the
    diagonal walk of [DescriptorScriptIterator] and the round-robin
    scheduler [ScriptIterator], with the properties of the enumeration
    proved over the embedding.

    Conventions.
    - Python [int] is [Z]; [Optional[int]] is [option Z].
    - Python [str] is [string]; a character is its code point, and the
      embedding covers code points below 256.
    - A raised exception is the left summand of a result; the state of the
      raising object is returned along with it where the code has mutated
      it before raising.
    - The two capabilities of the collaborators ([get_pubkey_from_path] of
      the key library and [build_output_script] of the script module) are
      taken as total functions. *)

From Stdlib Require Import ZArith List String Ascii Bool Lia.
From Stdlib Require Import DecimalString DecimalZ DecimalPos DecimalN.
From stdpp Require Import base tactics option list sorting strings gmap.
Import ListNotations.

Local Open Scope string_scope.
Local Open Scope list_scope.
Local Open Scope Z_scope.

(** ** Python exceptions raised inside the module *)

Inductive exn : Type :=
| ValueError   (* raised by [int()] on text that is not an integer *)
| IndexError.  (* raised by list indexing out of range *)

Definition exn_name (e : exn) : string :=
  match e with
  | ValueError => "ValueError"
  | IndexError => "IndexError"
  end.

Global Instance exn_eq_dec : EqDecision exn.
Proof. solve_decision. Defined.

Global Instance byte_eq_dec : EqDecision Byte.byte := Byte.byte_eq_dec.

Definition result (A : Type) : Type := exn + A.

Global Instance result_eq_dec `{EqDecision A} : EqDecision (result A).
Proof. unfold result. apply _. Defined.

Definition Ok {A} (a : A) : result A := inr a.
Definition Raise {A} (e : exn) : result A := inl e.

Definition bind {A B} (m : result A) (f : A -> result B) : result B :=
  match m with
  | inl e => inl e
  | inr a => f a
  end.

Notation "'let*' x ':=' m 'in' k" := (bind m (fun x => k))
  (at level 10, x name, m at level 100, k at level 200).

(** ** Python string primitives used by [Path] *)

Module PyStr.

(** [str(n)] for an [int]: decimal digits, a leading minus sign for a
    negative number. *)
Definition str (n : Z) : string := NilZero.string_of_int (Z.to_int n).

(** [str(x)] for an [Optional[int]]. *)
Definition str_opt (x : option Z) : string :=
  match x with
  | Some n => str n
  | None => "None"
  end.

(** [s.find(c)] for a one-character needle: position of the first
    occurrence, [-1] when there is none. *)
Fixpoint find_from (c : ascii) (s : string) (i : Z) : Z :=
  match s with
  | EmptyString => -1
  | String x s' => if Ascii.eqb x c then i else find_from c s' (i + 1)
  end.

Definition find (c : ascii) (s : string) : Z := find_from c s 0.

(** [s.replace(c, new)] for a one-character pattern. *)
Fixpoint replace (c : ascii) (new : string) (s : string) : string :=
  match s with
  | EmptyString => EmptyString
  | String x s' =>
      if Ascii.eqb x c then new +:+ replace c new s'
      else String x (replace c new s')
  end.

(** [s.split(sep)] for a one-character separator. *)
Fixpoint split (sep : ascii) (s : string) : list string :=
  match s with
  | EmptyString => [EmptyString]
  | String x s' =>
      if Ascii.eqb x sep then EmptyString :: split sep s'
      else match split sep s' with
           | h :: t => String x h :: t
           | [] => [String x EmptyString]
           end
  end.

(** [s.endswith(c)]. *)
Fixpoint endswith (c : ascii) (s : string) : bool :=
  match s with
  | EmptyString => false
  | String x EmptyString => Ascii.eqb x c
  | String _ s' => endswith c s'
  end.

(** [s[:-1]]. *)
Fixpoint drop_last (s : string) : string :=
  match s with
  | EmptyString => EmptyString
  | String _ EmptyString => EmptyString
  | String x s' => String x (drop_last s')
  end.

(** [c in s]. *)
Fixpoint occurs (c : ascii) (s : string) : bool :=
  match s with
  | EmptyString => false
  | String x s' => Ascii.eqb x c || occurs c s'
  end.

Definition ord (c : ascii) : Z := Z.of_N (N_of_ascii c).

(** White space skipped by [int()] at both ends of its argument. *)
Definition is_space (c : ascii) : bool :=
  let n := ord c in
  ((9 <=? n) && (n <=? 13)) || (n =? 32) || (n =? 133) || (n =? 160).

Definition is_digit (c : ascii) : bool :=
  let n := ord c in (48 <=? n) && (n <=? 57).

Definition digit_value (c : ascii) : Z := ord c - 48.

Fixpoint lstrip (s : string) : string :=
  match s with
  | EmptyString => EmptyString
  | String x s' => if is_space x then lstrip s' else s
  end.

Fixpoint rev_append (s acc : string) : string :=
  match s with
  | EmptyString => acc
  | String x s' => rev_append s' (String x acc)
  end.

Definition rev (s : string) : string := rev_append s EmptyString.

Definition strip (s : string) : string := rev (lstrip (rev (lstrip s))).

(** Decimal digits with single underscores allowed between two digits.
    [after_digit] tells whether the previous character was a digit. *)
Fixpoint digits (s : string) (acc : Z) (after_digit : bool) : option Z :=
  match s with
  | EmptyString => if after_digit then Some acc else None
  | String x s' =>
      if is_digit x then digits s' (10 * acc + digit_value x) true
      else if Ascii.eqb x "_" && after_digit then digits s' acc false
      else None
  end.

(** Every character is a decimal digit. *)
Fixpoint all_digits (s : string) : bool :=
  match s with
  | EmptyString => true
  | String x s' => is_digit x && all_digits s'
  end.

(** The number read from the decimal digits [u] after the digits that
    made [acc]. *)
Fixpoint uint_value (u : Decimal.uint) (acc : Z) : Z :=
  match u with
  | Decimal.Nil => acc
  | Decimal.D0 u' => uint_value u' (10 * acc + 0)
  | Decimal.D1 u' => uint_value u' (10 * acc + 1)
  | Decimal.D2 u' => uint_value u' (10 * acc + 2)
  | Decimal.D3 u' => uint_value u' (10 * acc + 3)
  | Decimal.D4 u' => uint_value u' (10 * acc + 4)
  | Decimal.D5 u' => uint_value u' (10 * acc + 5)
  | Decimal.D6 u' => uint_value u' (10 * acc + 6)
  | Decimal.D7 u' => uint_value u' (10 * acc + 7)
  | Decimal.D8 u' => uint_value u' (10 * acc + 8)
  | Decimal.D9 u' => uint_value u' (10 * acc + 9)
  end.

(** [int(s)] in base ten: [None] stands for the [ValueError]. *)
Definition int (s : string) : option Z :=
  match strip s with
  | String "+" s' => digits s' 0 false
  | String "-" s' => option_map Z.opp (digits s' 0 false)
  | s' => digits s' 0 false
  end.

End PyStr.

(** ** The script types of the script module (an enumeration there) *)

Inductive ScriptType : Type := LEGACY | COMPAT | SEGWIT.

Global Instance ScriptType_eq_dec : EqDecision ScriptType.
Proof. solve_decision. Defined.

(** Modelled from the spec: [HARDENED_INDEX] is a constant of the key
    library, imported by the module and absent from it; the spec gives the
    hardened-index offset as 2^31. *)
Definition HARDENED_INDEX : Z := 2 ^ 31.

(** Python [bytes]. *)
Definition bytes : Type := list Byte.byte.

(** The capabilities consumed from the collaborators: the master key type
    with its public-key derivation, and the output-script builder of a
    script type.  Both calls are functions here, so they always return:
    the exceptions that the key library or the script builder may raise
    (the key library rejects derivation indexes of 2^32 and more) are not
    modelled, and a statement that promises results holds for
    collaborators that return on every call made. *)
Class Capabilities : Type := {
  BIP32 : Type;
  get_pubkey_from_path : BIP32 -> list Z -> bytes;
  build_output_script : ScriptType -> bytes -> bytes
}.

(** A stand-in for the collaborators, used to evaluate the iterators on
    concrete inputs: the master key carries no data, a public key is the
    list of the low bytes of the derivation indexes, and the output script
    is the key behind one byte for the script type. *)
Definition byte_of_Z (z : Z) : Byte.byte :=
  default Byte.x00 (Byte.of_N (Z.to_N (z mod 256))).

Definition sample_capabilities : Capabilities := {|
  BIP32 := unit;
  get_pubkey_from_path := fun _ indexes => map byte_of_Z indexes;
  build_output_script := fun script_type pubkey =>
    match script_type with
    | LEGACY => Byte.x00
    | COMPAT => Byte.x01
    | SEGWIT => Byte.x02
    end :: pubkey
|}.

(** The module-level table [descriptors], in insertion order. *)
Definition descriptors : list (string * list ScriptType) := [
  ("m/44'/0'/a'/0/i", [LEGACY]);
  ("m/44'/0'/a'/1/i", [LEGACY]);
  ("m/49'/0'/a'/0/i", [COMPAT]);
  ("m/49'/0'/a'/1/i", [COMPAT]);
  ("m/84'/0'/a'/0/i", [SEGWIT]);
  ("m/84'/0'/a'/1/i", [SEGWIT]);
  ("m/0'/0'/i'", [LEGACY; COMPAT; SEGWIT]);
  ("m/0'/0/i", [LEGACY; COMPAT; SEGWIT]);
  ("m/0'/1/i", [LEGACY; COMPAT; SEGWIT]);
  ("m/44'/0'/2147483647'/0/i", [LEGACY]);
  ("m/44'/0'/2147483647'/1/i", [LEGACY]);
  ("m/49'/0'/2147483647'/0/i", [COMPAT]);
  ("m/49'/0'/2147483647'/1/i", [COMPAT]);
  ("m/84'/0'/2147483647'/0/i", [SEGWIT]);
  ("m/84'/0'/2147483647'/1/i", [SEGWIT]);
  ("m/84'/0'/2147483646'/0/i", [SEGWIT]);
  ("m/84'/0'/2147483646'/1/i", [SEGWIT]);
  ("m/84'/0'/2147483645'/0/i", [SEGWIT]);
  ("m/84'/0'/2147483645'/1/i", [SEGWIT]);
  ("m/84'/0'/2147483644'/0/i", [SEGWIT]);
  ("m/84'/0'/2147483644'/1/i", [SEGWIT])
].

(** ** class Path *)

Module Path.

Record t : Type := Path { path : string }.

Global Instance t_eq_dec : EqDecision t.
Proof. solve_decision. Defined.

Definition has_variable_account (self : t) : bool :=
  PyStr.find "a" (path self) >=? 0.

Definition has_variable_index (self : t) : bool :=
  PyStr.find "i" (path self) >=? 0.

(** [int(s)], raising. *)
Definition int (s : string) : result Z :=
  match PyStr.int s with
  | Some n => Ok n
  | None => Raise ValueError
  end.

(** The body of the [for part in parts] loop: the index appended. *)
Definition derivation_index (part : string) : result Z :=
  if PyStr.endswith "'" part then
    let* n := int (PyStr.drop_last part) in Ok (HARDENED_INDEX + n)
  else
    int part.

Fixpoint to_list_loop (parts : list string) (indexes : list Z)
  : result (list Z) :=
  match parts with
  | [] => Ok indexes
  | part :: parts' =>
      let* n := derivation_index part in
      to_list_loop parts' (indexes ++ [n])
  end.

(** The segments parsed by [to_list]: placeholders replaced, the text
    split at the slashes, the leading segment dropped ([[1:]]). *)
Definition parts (self : t) (index account : option Z) : list string :=
  let path :=
    PyStr.replace "i" (PyStr.str_opt index)
      (PyStr.replace "a" (PyStr.str_opt account) (path self)) in
  tail (PyStr.split "/" path).

Definition to_list (self : t) (index account : option Z)
  : result (list Z) :=
  to_list_loop (parts self index account) [].

(** What [to_list] requires of one segment and the index it yields. *)
Definition yields_index (segment : string) (n : Z) : Prop :=
  if PyStr.endswith "'" segment
  then exists v, PyStr.int (PyStr.drop_last segment) = Some v
                 /\ n = 2 ^ 31 + v
  else PyStr.int segment = Some n.

(** The literal read by [to_list] in a segment: the segment itself, or
    the segment without its closing quote. *)
Definition literal (segment : string) : option Z :=
  PyStr.int (if PyStr.endswith "'" segment
             then PyStr.drop_last segment else segment).

(** A segment of a template is well formed: a placeholder or a
    non-empty run of digits, with or without the closing quote. *)
Definition segment_ok (segment : string) : bool :=
  let body := if PyStr.endswith "'" segment
              then PyStr.drop_last segment else segment in
  String.eqb body "a" || String.eqb body "i"
  || (PyStr.all_digits body && negb (String.eqb body "")).

Definition template_ok (path : string) : bool :=
  forallb segment_ok (tail (PyStr.split "/" path)).

(** The index that [to_list] appends for a well-formed segment of a
    template, when the placeholders stand for [account] and [index]. *)
Definition segment_index (account index : Z) (segment : string) : Z :=
  let hardened := PyStr.endswith "'" segment in
  let body := if hardened then PyStr.drop_last segment else segment in
  let v :=
    if String.eqb body "a" then account
    else if String.eqb body "i" then index
    else default 0 (PyStr.int body) in
  if hardened then HARDENED_INDEX + v else v.

(** The literal of the segment, if it has one, is below 2^31. *)
Definition segment_small (segment : string) : bool :=
  let body := if PyStr.endswith "'" segment
              then PyStr.drop_last segment else segment in
  default 0 (PyStr.int body) <? 2 ^ 31.

Definition with_account (self : t) (account : Z) : t :=
  Path (PyStr.replace "a" (PyStr.str account) (path self)).

Definition with_index (self : t) (index : Z) : t :=
  Path (PyStr.replace "i" (PyStr.str index) (path self)).

(** [__eq__] between two paths. *)
Definition eq (self other : t) : bool :=
  String.eqb (path self) (path other).

End Path.

(** ** Path objects in the store

    Python values are references to objects.  The store maps the identity
    of a [Path] object to its attributes; a method call reads its receiver
    in the store, and a constructor call allocates. *)

Module PathObj.

Definition ref : Type := positive.
Abbreviation store := (gmap ref Path.t).

(** [Path(path)]: a new object. *)
Definition new (p : Path.t) (h : store) : ref * store :=
  let r := fresh (dom h) in (r, <[r := p]> h).

Definition has_variable_account (self : ref) (h : store) : option bool :=
  Path.has_variable_account <$> h !! self.

Definition has_variable_index (self : ref) (h : store) : option bool :=
  Path.has_variable_index <$> h !! self.

(** [self.with_account(account)]: reads [self.path], builds the new
    text and returns a newly constructed object. *)
Definition with_account (self : ref) (account : Z) (h : store)
  : option (ref * store) :=
  match h !! self with
  | Some o => Some (new (Path.with_account o account) h)
  | None => None
  end.

Definition with_index (self : ref) (index : Z) (h : store)
  : option (ref * store) :=
  match h !! self with
  | Some o => Some (new (Path.with_index o index) h)
  | None => None
  end.

End PathObj.

(** ** The anti-diagonal order on the cells of a grid *)

Module Diagonal.

(** A cell is a pair [(index, account)]. *)
Definition cell : Type := Z * Z.

Definition in_grid (max_index max_account : Z) (c : cell) : Prop :=
  (0 <= c.1 <= max_index) /\ (0 <= c.2 <= max_account).

(** [before c c']: [c] lies on an earlier anti-diagonal than [c'], or
    on the same one with a smaller account. *)
Definition before (c c' : cell) : Prop :=
  c.1 + c.2 < c'.1 + c'.2 \/ (c.1 + c.2 = c'.1 + c'.2 /\ c.2 < c'.2).

(** The cursor assigned by [DescriptorScriptIterator.next_script]. *)
Definition advance (max_index max_account : Z) (c : cell) : cell :=
  if (c.1 =? 0) || (c.2 =? max_account) then
    let diagonal_total := c.1 + c.2 + 1 in
    let index' := Z.min diagonal_total max_index in
    (index', diagonal_total - index')
  else (c.1 - 1, c.2 + 1).

(** [walk mi ma c cs]: starting at [c] and advancing until the cursor
    leaves the grid, the cells met are [cs]. *)
Inductive walk (max_index max_account : Z) : cell -> list cell -> Prop :=
| walk_out c :
    ~ (c.1 <= max_index /\ c.2 <= max_account) ->
    walk max_index max_account c []
| walk_in c cs :
    c.1 <= max_index -> c.2 <= max_account ->
    walk max_index max_account (advance max_index max_account c) cs ->
    walk max_index max_account c (c :: cs).

(** All the cells of the grid, row by row. *)
Definition grid (max_index max_account : Z) : list cell :=
  list_prod (seqZ 0 (max_index + 1)) (seqZ 0 (max_account + 1)).

(** The number of cells of the grid, none when a bound is negative. *)
Definition size (max_index max_account : Z) : nat :=
  Z.to_nat (Z.max 0 (max_index + 1) * Z.max 0 (max_account + 1)).

End Diagonal.

(** ** Merging sequences by rounds

    The order in which a round-robin scheduler drains a collection of
    sequences: first the first element of every sequence, in the order of
    the collection, then the second element of every sequence that has
    one, and so on. *)

Module RoundRobin.

(** The elements of rank [t] (from 0) of the sequences that have one. *)
Definition round {A} (t : nat) (L : list (list A)) : list A :=
  omap (fun l => l !! t) L.

(** The length of the longest sequence. *)
Definition depth {A} (L : list (list A)) : nat := max_list_with length L.

Definition merge {A} (L : list (list A)) : list A :=
  concat ((fun t => round t L) <$> seq 0 (depth L)).

(** The first elements, and what is left of the sequences that had one. *)
Definition heads {A} (L : list (list A)) : list A := omap head L.

Definition tails {A} (L : list (list A)) : list (list A) :=
  omap (fun l => match l with [] => None | _ :: l' => Some l' end) L.

(** The number of sequences that have an element of rank [t]. *)
Definition active {A} (L : list (list A)) (t : nat) : nat :=
  length (round t L).

(** The position, in the merged sequence, of the element of rank [k] of
    the sequence number [j]: the rounds before [k] come first, then the
    elements of rank [k] of the sequences before [j]. *)
Definition slot {A} (L : list (list A)) (j k : nat) : nat :=
  sum_list_with (active L) (seq 0 k) + active (take j L) k.

(** The merged sequence of a collection taken in the middle of a round:
    the sequences [S] are still to be served in this round, the sequences
    [P] have been served already. *)
Definition resume {A} (P S : list (list A)) : list A :=
  heads S ++ merge (P ++ tails S).

(** The sequences with every element tagged by the number of its
    sequence. *)
Definition tagged {A} (L : list (list A)) : list (list (nat * A)) :=
  imap (fun j l => pair j <$> l) L.

End RoundRobin.

(** The value returned by both [next_script] methods on success. *)
Definition script_result : Type := bytes * Path.t * ScriptType.

Global Instance script_result_eq_dec : EqDecision script_result.
Proof. unfold script_result, bytes. apply _. Defined.

(** ** class DescriptorScriptIterator *)

Module DescriptorScriptIterator.
Section WithCapabilities.
Context `{Capabilities}.

Record t : Type := Build {
  path : Path.t;
  script_type : ScriptType;
  index : Z;
  account : Z;
  max_index : Z;
  max_account : Z;
  total_scripts : Z
}.

Definition __init__ (path : Path.t) (script_type : ScriptType)
    (max_index max_account : Z) : t :=
  let max_index := if Path.has_variable_index path then max_index else 0 in
  let max_account :=
    if Path.has_variable_account path then max_account else 0 in
  {| path := path;
     script_type := script_type;
     index := 0;
     account := 0;
     max_index := max_index;
     max_account := max_account;
     total_scripts := (max_index + 1) * (max_account + 1) |}.

Definition set_cursor (self : t) (index account : Z) : t :=
  {| path := path self;
     script_type := script_type self;
     index := index;
     account := account;
     max_index := max_index self;
     max_account := max_account self;
     total_scripts := total_scripts self |}.

(** [next_script]: the returned value and the iterator after the call.
    The cursor is assigned after the last call that can raise, so a
    raising call leaves the iterator as it was. *)
Definition next_script (self : t) (master_key : BIP32)
  : result (option script_result * t) :=
  if (index self >? max_index self) || (account self >? max_account self)
  then Ok (None, self)
  else
    let path := Path.with_account (path self) (account self) in
    let* indexes := Path.to_list path (Some (index self)) None in
    let pubkey := get_pubkey_from_path master_key indexes in
    let script := build_output_script (script_type self) pubkey in
    let self' :=
      if (index self =? 0) || (account self =? max_account self) then
        let diagonal_total := index self + account self + 1 in
        let index' := Z.min diagonal_total (max_index self) in
        set_cursor self index' (diagonal_total - index')
      else
        set_cursor self (index self - 1) (account self + 1) in
    Ok (Some (script, path, script_type self), self').


(** *** Successive calls *)

(** The cursor, as the cell [(index, account)] of the grid. *)
Definition cursor (self : t) : Z * Z := (index self, account self).

(** The outcomes of [n] successive calls. *)
Fixpoint outcomes (n : nat) (self : t) (master_key : BIP32)
  : list (result (option script_result)) :=
  match n with
  | O => []
  | S n' =>
      match next_script self master_key with
      | inr (r, self') => Ok r :: outcomes n' self' master_key
      | inl e => Raise e :: outcomes n' self master_key
      end
  end.

(** The cells at which the first [n] successive calls returned a
    non-null result, in the order of the calls. *)
Fixpoint visited (n : nat) (self : t) (master_key : BIP32)
  : list (Z * Z) :=
  match n with
  | O => []
  | S n' =>
      match next_script self master_key with
      | inr (Some _, self') => cursor self :: visited n' self' master_key
      | inr (None, self') => visited n' self' master_key
      | inl _ => visited n' self master_key
      end
  end.

(** The iterator after [n] successive calls (a raising call leaves it as
    it is). *)
Fixpoint after (n : nat) (self : t) (master_key : BIP32) : t :=
  match n with
  | O => self
  | S n' =>
      match next_script self master_key with
      | inr (_, self') => after n' self' master_key
      | inl _ => after n' self master_key
      end
  end.

(** The cursor is on the grid, or one step behind its last cell. *)
Definition on_track (self : t) : Prop :=
  Diagonal.in_grid (max_index self) (max_account self) (cursor self)
  \/ cursor self = (max_index self, max_account self + 1).

(** The fields that no call assigns. *)
Definition same_search (self self' : t) : Prop :=
  path self' = path self /\ script_type self' = script_type self
  /\ max_index self' = max_index self /\ max_account self' = max_account self
  /\ total_scripts self' = total_scripts self.

(** The template of the search resolves to integers on every cell of
    its grid: no call raises from [Path.to_list]. *)
Definition resolves (self : t) : Prop :=
  forall index account,
    0 <= index <= max_index self ->
    0 <= account <= max_account self ->
    exists indexes,
      Path.to_list (Path.with_account (path self) account)
        (Some index) None = inr indexes.

(** The result returned at a cell of the grid, when the template
    resolves there. *)
Definition script_at (self : t) (master_key : BIP32) (c : Z * Z)
  : option script_result :=
  let path := Path.with_account (path self) c.2 in
  match Path.to_list path (Some c.1) None with
  | inr indexes =>
      Some (build_output_script (script_type self)
              (get_pubkey_from_path master_key indexes),
            path, script_type self)
  | inl _ => None
  end.

(** [yields self master_key rs]: driven alone, the search returns the
    results [rs], one per call, and null from then on. *)
Inductive yields (master_key : BIP32) : t -> list script_result -> Prop :=
| yields_done self :
    next_script self master_key = inr (None, self) ->
    yields master_key self []
| yields_more self r self' rs :
    next_script self master_key = inr (Some r, self') ->
    yields master_key self' rs ->
    yields master_key self (r :: rs).

(** [enumerates master_key self E]: driven alone, the search returns the
    results of [E], and [E] pairs every cell of the grid, once, with the
    result returned there. *)
Definition enumerates (master_key : BIP32) (self : t)
    (E : list ((Z * Z) * script_result)) : Prop :=
  yields master_key self (snd <$> E)
  /\ Forall (fun e => script_at self master_key e.1 = Some e.2) E
  /\ NoDup (fst <$> E)
  /\ (forall c, c ∈ (fst <$> E) <->
                Diagonal.in_grid (max_index self) (max_account self) c)
  /\ length E = Z.to_nat (total_scripts self).


End WithCapabilities.
End DescriptorScriptIterator.

(** ** Python list indexing *)

Module PyList.

(** The position denoted by index [i] in a list of length [n]: negative
    indexes count from the end. *)
Definition position (n : nat) (i : Z) : result nat :=
  let j := if i <? 0 then i + Z.of_nat n else i in
  if (0 <=? j) && (j <? Z.of_nat n) then Ok (Z.to_nat j)
  else Raise IndexError.

(** [l[i]]. *)
Definition getitem {A} (l : list A) (i : Z) : result A :=
  let* j := position (length l) i in
  match l !! j with
  | Some x => Ok x
  | None => Raise IndexError
  end.

(** [del l[i]]. *)
Definition delitem {A} (l : list A) (i : Z) : result (list A) :=
  let* j := position (length l) i in Ok (delete j l).

(** The list after the object at [l[i]] has been mutated into [x]. *)
Definition mutated {A} (l : list A) (i : Z) (x : A) : list A :=
  match position (length l) i with
  | inr j => <[j := x]> l
  | inl _ => l
  end.

(** [sum(l)]. *)
Definition sum (l : list Z) : Z := foldl Z.add 0 l.

End PyList.

(** ** class ScriptIterator *)

Module ScriptIterator.
Section WithCapabilities.
Context `{Capabilities}.

(** The searches appended by the two nested loops of [__init__]. *)
Definition searches (max_index max_account : Z)
  : list DescriptorScriptIterator.t :=
  flat_map
    (fun '(path, types) =>
       map (fun type =>
              DescriptorScriptIterator.__init__ (Path.Path path) type
                max_index max_account)
           types)
    descriptors.

Record t : Type := Build {
  master_key : BIP32;
  index : Z;
  descriptors : list DescriptorScriptIterator.t;
  total_scripts : Z
}.

Definition __init__ (master_key : BIP32) (max_index max_account : Z) : t :=
  let ds := searches max_index max_account in
  {| master_key := master_key;
     index := 0;
     descriptors := ds;
     total_scripts :=
       PyList.sum (map DescriptorScriptIterator.total_scripts ds) |}.

Definition set_state (self : t) (index : Z)
    (descriptors : list DescriptorScriptIterator.t) : t :=
  {| master_key := master_key self;
     index := index;
     descriptors := descriptors;
     total_scripts := total_scripts self |}.

(** [_next_descriptor_script]: the outcome of the call and the iterator
    after it, also when the call raises. *)
Definition _next_descriptor_script (self : t)
  : result (option script_result) * t :=
  match PyList.getitem (descriptors self) (index self) with
  | inl e => (inl e, self)
  | inr descriptor =>
      match DescriptorScriptIterator.next_script descriptor
              (master_key self) with
      | inl e => (inl e, self)
      | inr (iter, descriptor') =>
          (* the polled object has been advanced in place *)
          let ds := PyList.mutated (descriptors self) (index self)
                      descriptor' in
          let after_removal :=
            match iter with
            | None =>
                match PyList.delitem ds (index self) with
                | inl e => inl (e, set_state self (index self) ds)
                | inr ds' => inr (set_state self (index self - 1) ds')
                end
            | Some _ => inr (set_state self (index self) ds)
            end in
          match after_removal with
          | inl (e, self') => (inl e, self')
          | inr self1 =>
              let self2 :=
                set_state self1 (index self1 + 1) (descriptors self1) in
              let self3 :=
                if index self2 >=? Z.of_nat (length (descriptors self2))
                then set_state self2 0 (descriptors self2)
                else self2 in
              (Ok iter, self3)
          end
      end
  end.

(** The [while] loop of [next_script], unrolled at most [fuel] times;
    [None] when the fuel runs out before the loop ends. *)
Fixpoint next_script_loop (fuel : nat) (self : t)
  : option (result (option script_result) * t) :=
  match fuel with
  | O => None
  | S fuel' =>
      if Z.of_nat (length (descriptors self)) >? 0 then
        match _next_descriptor_script self with
        | (inr None, self') => next_script_loop fuel' self'
        | (outcome, self') => Some (outcome, self')
        end
      else Some (Ok None, self)
  end.

(** [next_script]: each turn of the loop returns or removes a search, so
    one turn more than there are searches is enough
    (see [next_script_total]). *)
Definition next_script (self : t)
  : option (result (option script_result) * t) :=
  next_script_loop (S (length (descriptors self))) self.


(** *** Successive calls *)

(** The outcomes of [n] successive calls of [next_script]. *)
Fixpoint outcomes (n : nat) (self : t)
  : list (result (option script_result)) :=
  match n with
  | O => []
  | S n' =>
      match next_script self with
      | Some (outcome, self') => outcome :: outcomes n' self'
      | None => []
      end
  end.

(** The invariant of the cursor: it points into the collection, unless
    the collection is empty. *)
Definition cursor_valid (self : t) : Prop :=
  descriptors self = []
  \/ 0 <= index self < Z.of_nat (length (descriptors self)).

(** The iterator is in the middle of a round: the searches [served] have
    been polled in this round, the cursor is on the first of the searches
    [waiting]; at the end of a round the cursor has wrapped. *)
Definition in_round (master_key' : BIP32) (self : t)
    (served waiting : list DescriptorScriptIterator.t) : Prop :=
  master_key self = master_key'
  /\ descriptors self = served ++ waiting
  /\ index self = Z.of_nat (length served)
  /\ (waiting = [] -> served = []).

(** What [n] successive calls return when the merged stream of results
    is [rs]: the results in order, then null. *)
Definition expected (rs : list script_result) (n : nat)
  : list (result (option script_result)) :=
  take n ((Ok ∘ Some <$> rs) ++ replicate n (Ok None)).

End WithCapabilities.
End ScriptIterator.

(** * Properties *)

(** ** Facts about the string primitives *)

Section StringFacts.
Import PyStr.

Lemma append_cons x (s t : string) : String x s +:+ t = String x (s +:+ t).
Proof. reflexivity. Qed.

Lemma append_nil_l (t : string) : "" +:+ t = t.
Proof. reflexivity. Qed.

Lemma append_nil_r (s : string) : s +:+ "" = s.
Proof.
  induction s as [|x s IH]; [done|]. by rewrite append_cons, IH.
Qed.

Lemma append_assoc (s1 s2 s3 : string) :
  (s1 +:+ s2) +:+ s3 = s1 +:+ (s2 +:+ s3).
Proof.
  induction s1 as [|x s1 IH]; [done|]. by rewrite !append_cons, IH.
Qed.

Lemma find_from_shift c s i :
  find_from c s i = if find_from c s 0 <? 0 then -1 else find_from c s 0 + i.
Proof.
  revert i. induction s as [|x s IH]; intros i; simpl; [done|].
  destruct (Ascii.eqb x c); [simpl; lia|].
  rewrite (IH (i + 1)), (IH (0 + 1)).
  destruct (find_from c s 0 <? 0) eqn:E; simpl; [done|].
  apply Z.ltb_ge in E.
  destruct (find_from c s 0 + (0 + 1) <? 0) eqn:E'; [lia|lia].
Qed.

Lemma find_from_lower c s i : 0 <= i -> find_from c s i = -1 \/ i <= find_from c s i.
Proof.
  revert i. induction s as [|x s IH]; intros i Hi; simpl; [by left|].
  destruct (Ascii.eqb x c); [right; lia|].
  destruct (IH (i + 1)) as [->| ?]; [lia|by left|right; lia].
Qed.

(** [s.find(c) >= 0] exactly when [c] occurs in [s]. *)
Lemma find_occurs c s : (find c s >=? 0) = occurs c s.
Proof.
  unfold find. induction s as [|x s IH]; simpl; [done|].
  destruct (Ascii.eqb x c); simpl; [done|].
  rewrite <- IH, (find_from_shift c s (0 + 1)), !Z.geb_leb.
  destruct (Z.ltb_spec (find_from c s 0) 0);
    repeat match goal with |- context [?a <=? ?b] =>
      destruct (Z.leb_spec a b) end; first [done | lia].
Qed.

Lemma occurs_app c s1 s2 : occurs c (s1 +:+ s2) = occurs c s1 || occurs c s2.
Proof.
  induction s1 as [|x s1 IH]; [done|].
  rewrite append_cons. simpl. by rewrite IH, orb_assoc.
Qed.

Lemma replace_app c new s1 s2 :
  replace c new (s1 +:+ s2) = replace c new s1 +:+ replace c new s2.
Proof.
  induction s1 as [|x s1 IH]; [done|].
  rewrite append_cons. simpl.
  destruct (Ascii.eqb x c); rewrite IH; [by rewrite append_assoc|done].
Qed.

Lemma replace_absent c new s : occurs c s = false -> replace c new s = s.
Proof.
  induction s as [|x s IH]; simpl; [done|].
  intros [E1 E2]%orb_false_iff. rewrite E1. by rewrite IH.
Qed.

(** Replacing [c] leaves the occurrences of another character in place. *)
Lemma occurs_replace c d new s :
  d <> c -> occurs d s = true -> occurs d (replace c new s) = true.
Proof.
  intros Hdc. induction s as [|x s IH]; simpl; [done|].
  destruct (Ascii.eqb_spec x d) as [->|Hxd]; simpl.
  - intros _. destruct (Ascii.eqb_spec d c); [done|].
    simpl. by rewrite Ascii.eqb_refl.
  - intros Hs. destruct (Ascii.eqb x c).
    + rewrite occurs_app, IH by done. apply orb_true_r.
    + simpl. rewrite IH by done. apply orb_true_r.
Qed.

End StringFacts.

(** ** [Path]: resolution, failure, binding *)

Section PathFacts.

Lemma derivation_index_ok segment n :
  Path.derivation_index segment = inr n <-> Path.yields_index segment n.
Proof.
  unfold Path.derivation_index, Path.yields_index, Path.int.
  destruct (PyStr.endswith "'" segment).
  - destruct (PyStr.int (PyStr.drop_last segment)) as [v|]; simpl.
    + unfold Ok, HARDENED_INDEX. split.
      * intros [= <-]. by exists v.
      * intros (v' & [= <-] & ->). done.
    + split; [done|]. by intros (v & ? & _).
  - destruct (PyStr.int segment) as [v|]; simpl; unfold Ok, Raise.
    + split; congruence.
    + split; congruence.
Qed.

Lemma derivation_index_literal segment :
  Path.derivation_index segment = inl ValueError <-> Path.literal segment = None.
Proof.
  unfold Path.derivation_index, Path.literal, Path.int.
  destruct (PyStr.endswith "'" segment).
  - destruct (PyStr.int (PyStr.drop_last segment)); simpl;
      unfold Ok, Raise; split; congruence.
  - destruct (PyStr.int segment); simpl; unfold Ok, Raise; split; congruence.
Qed.

Lemma derivation_index_raises segment e :
  Path.derivation_index segment = inl e -> e = ValueError.
Proof.
  unfold Path.derivation_index, Path.int.
  destruct (PyStr.endswith "'" segment).
  - destruct (PyStr.int (PyStr.drop_last segment)); simpl;
      unfold Ok, Raise; congruence.
  - destruct (PyStr.int segment); simpl; unfold Ok, Raise; congruence.
Qed.

Lemma to_list_loop_ok parts acc indexes :
  Path.to_list_loop parts acc = inr indexes <->
  exists tl, indexes = acc ++ tl /\ Forall2 Path.yields_index parts tl.
Proof.
  revert acc indexes.
  induction parts as [|part parts IH]; intros acc indexes; simpl.
  - unfold Ok. split.
    + intros [= <-]. exists []. by rewrite app_nil_r.
    + intros (tl & -> & Htl). inversion Htl. by rewrite app_nil_r.
  - destruct (Path.derivation_index part) as [e|n] eqn:E; simpl.
    + split; [done|]. intros (tl & _ & Htl).
      inversion Htl as [|? y ? ? Hy]; subst.
      apply derivation_index_ok in Hy. congruence.
    + rewrite IH. split.
      * intros (tl & -> & Htl). exists (n :: tl).
        rewrite <- app_assoc. split; [done|].
        constructor; [by apply derivation_index_ok|done].
      * intros (tl & -> & Htl).
        inversion Htl as [|? y ? tl' Hy Htl']; subst.
        apply derivation_index_ok in Hy.
        assert (y = n) as -> by congruence.
        exists tl'. by rewrite <- app_assoc.
Qed.

Lemma to_list_loop_fails parts acc :
  Exists (fun s => Path.literal s = None) parts ->
  Path.to_list_loop parts acc = inl ValueError.
Proof.
  revert acc. induction parts as [|part parts IH]; intros acc Hex.
  - inversion Hex.
  - simpl. destruct (Path.derivation_index part) as [e|n] eqn:E; simpl.
    + by rewrite (derivation_index_raises _ _ E).
    + apply IH. inversion Hex as [? ? Hp|]; subst; [|done].
      apply derivation_index_literal in Hp. congruence.
Qed.

Lemma to_list_loop_succeeds parts acc :
  Forall (fun s => Path.literal s <> None) parts ->
  exists indexes, Path.to_list_loop parts acc = inr indexes.
Proof.
  revert acc. induction parts as [|part parts IH]; intros acc Hall.
  - by exists acc.
  - inversion Hall as [|? ? Hp Hps]; subst. simpl.
    destruct (Path.derivation_index part) as [e|n] eqn:E; simpl.
    + pose proof (derivation_index_raises _ _ E) as ->.
      apply derivation_index_literal in E. done.
    + apply IH, Hps.
Qed.

End PathFacts.

(** C6. [Path.to_list] replaces the account and index placeholders,
    splits the text at the slashes (the leading segment, the master key
    marker, is dropped) and maps every segment to a derivation index: a
    segment ending in a quote yields 2^31 plus its literal value, a plain
    segment its own value.  In particular the BIP44 template resolved at
    index 5 and account 2 gives [2^31+44, 2^31+0, 2^31+2, 0, 5]. *)
Theorem to_list_derivation_indexes (self : Path.t) (index account : option Z) :
  let substituted :=
    PyStr.replace "i" (PyStr.str_opt index)
      (PyStr.replace "a" (PyStr.str_opt account) (Path.path self)) in
  let segments := tail (PyStr.split "/" substituted) in
  (forall indexes,
     Path.to_list self index account = inr indexes <->
     Forall2
       (fun segment n =>
          if PyStr.endswith "'" segment
          then exists v, PyStr.int (PyStr.drop_last segment) = Some v
                         /\ n = 2 ^ 31 + v
          else PyStr.int segment = Some n)
       segments indexes)
  /\ Path.to_list (Path.Path "m/44'/0'/a'/0/i") (Some 5) (Some 2)
     = inr [2 ^ 31 + 44; 2 ^ 31 + 0; 2 ^ 31 + 2; 0; 5].
Proof.
  simpl. split; [|by vm_compute].
  intros indexes. unfold Path.to_list. rewrite to_list_loop_ok. simpl.
  unfold Path.parts. split.
  - by intros (tl & -> & Htl).
  - intros Hall. by exists indexes.
Qed.

Lemma to_list_derivation_indexes_witness :
  Path.to_list (Path.Path "m/44'/0'/a'/0/i") (Some 5) (Some 2)
  = inr [2 ^ 31 + 44; 2 ^ 31 + 0; 2 ^ 31 + 2; 0; 5]
  /\ Forall2
       (fun segment n =>
          if PyStr.endswith "'" segment
          then exists v, PyStr.int (PyStr.drop_last segment) = Some v
                         /\ n = 2 ^ 31 + v
          else PyStr.int segment = Some n)
       ["44'"; "0'"; "2'"; "0"; "5"]
       [2 ^ 31 + 44; 2 ^ 31 + 0; 2 ^ 31 + 2; 0; 5].
Proof.
  destruct (to_list_derivation_indexes
              (Path.Path "m/44'/0'/a'/0/i") (Some 5) (Some 2))
    as [Hiff Hex].
  split; [exact Hex|]. exact (proj1 (Hiff _) Hex).
Defined.

(** C7, as the code has it.  [Path.to_list] fails whenever, after the
    placeholders are replaced, some segment behind the leading one holds
    a literal that [int()] rejects, and returns a list otherwise.  The
    failure is the [ValueError] of [int()]; a placeholder left unbound is
    such a case, its text being [None]. *)
Theorem to_list_fails_with_ValueError
    (self : Path.t) (index account : option Z) :
  let substituted :=
    PyStr.replace "i" (PyStr.str_opt index)
      (PyStr.replace "a" (PyStr.str_opt account) (Path.path self)) in
  let segments := tail (PyStr.split "/" substituted) in
  let literal segment :=
    PyStr.int (if PyStr.endswith "'" segment
               then PyStr.drop_last segment else segment) in
  (Exists (fun s => literal s = None) segments ->
   Path.to_list self index account = inl ValueError)
  /\ (Forall (fun s => literal s <> None) segments ->
      exists indexes, Path.to_list self index account = inr indexes)
  /\ Path.to_list (Path.Path "m/44'/0'/a'/0/i") (Some 5) None
     = inl ValueError.
Proof.
  simpl. split; [|split; [|by vm_compute]].
  - apply to_list_loop_fails.
  - apply to_list_loop_succeeds.
Qed.

Lemma to_list_fails_with_ValueError_witness :
  Exists
    (fun s =>
       PyStr.int (if PyStr.endswith "'" s then PyStr.drop_last s else s)
       = None)
    ["44'"; "0'"; "None'"; "0"; "5"]
  /\ Path.to_list (Path.Path "m/44'/0'/a'/0/i") (Some 5) None
     = inl ValueError.
Proof.
  assert (HE : Exists
    (fun s =>
       PyStr.int (if PyStr.endswith "'" s then PyStr.drop_last s else s)
       = None)
    ["44'"; "0'"; "None'"; "0"; "5"]).
  { do 2 apply Exists_cons_tl. apply Exists_cons_hd. reflexivity. }
  split; [exact HE|].
  exact (proj1 (to_list_fails_with_ValueError
                  (Path.Path "m/44'/0'/a'/0/i") (Some 5) None) HE).
Defined.

(** The error of an unbound placeholder is not one named
    [InvalidPathError]: the module defines no error of its own. *)
Lemma to_list_error_is_not_InvalidPathError :
  exists e,
    Path.to_list (Path.Path "m/44'/0'/a'/0/i") (Some 5) None = inl e
    /\ exn_name e <> "InvalidPathError".
Proof. exists ValueError. split; [by vm_compute|discriminate]. Qed.

(** C8. Binding a placeholder does not mutate: [t.with_account(v)]
    returns a new object holding the bound text, every object of the store
    is as it was, and [t] still has its free account; likewise for
    [with_index]. *)
Theorem with_account_with_index_non_mutating
    (h : PathObj.store) (t : PathObj.ref) (o : Path.t) (v : Z) :
  h !! t = Some o ->
  (Path.has_variable_account o = true ->
   exists t2 h2,
     PathObj.with_account t v h = Some (t2, h2)
     /\ t2 <> t
     /\ h2 !! t2 = Some (Path.with_account o v)
     /\ (forall r, r <> t2 -> h2 !! r = h !! r)
     /\ h2 !! t = Some o
     /\ PathObj.has_variable_account t h2 = Some true)
  /\ (Path.has_variable_index o = true ->
      exists t2 h2,
        PathObj.with_index t v h = Some (t2, h2)
        /\ t2 <> t
        /\ h2 !! t2 = Some (Path.with_index o v)
        /\ (forall r, r <> t2 -> h2 !! r = h !! r)
        /\ h2 !! t = Some o
        /\ PathObj.has_variable_index t h2 = Some true).
Proof.
  intros Ht.
  assert (Hfresh : fresh (dom h) <> t).
  { intros E. apply (is_fresh (dom h)). rewrite E.
    apply elem_of_dom. by exists o. }
  split; intros Hvar.
  - unfold PathObj.with_account, PathObj.new. rewrite Ht.
    eexists _, _. split; [done|]. split; [done|].
    split; [by rewrite lookup_insert_eq|].
    split; [by intros r Hr; rewrite lookup_insert_ne|].
    assert (Hsame : <[fresh (dom h) := Path.with_account o v]> h !! t = Some o)
      by by rewrite lookup_insert_ne.
    split; [done|].
    unfold PathObj.has_variable_account. by rewrite Hsame; simpl; rewrite Hvar.
  - unfold PathObj.with_index, PathObj.new. rewrite Ht.
    eexists _, _. split; [done|]. split; [done|].
    split; [by rewrite lookup_insert_eq|].
    split; [by intros r Hr; rewrite lookup_insert_ne|].
    assert (Hsame : <[fresh (dom h) := Path.with_index o v]> h !! t = Some o)
      by by rewrite lookup_insert_ne.
    split; [done|].
    unfold PathObj.has_variable_index. by rewrite Hsame; simpl; rewrite Hvar.
Qed.

Lemma with_account_with_index_non_mutating_witness :
  let h : PathObj.store := {[ 1%positive := Path.Path "m/44'/0'/a'/0/i" ]} in
  h !! 1%positive = Some (Path.Path "m/44'/0'/a'/0/i")
  /\ exists t2 h2,
       PathObj.with_account 1%positive 3 h = Some (t2, h2)
       /\ t2 <> 1%positive
       /\ h2 !! t2 = Some (Path.Path "m/44'/0'/3'/0/i")
       /\ h2 !! 1%positive = Some (Path.Path "m/44'/0'/a'/0/i")
       /\ PathObj.has_variable_account 1%positive h2 = Some true.
Proof.
  simpl.
  assert (H1 : ({[ 1%positive := Path.Path "m/44'/0'/a'/0/i" ]}
                  : PathObj.store) !! 1%positive
               = Some (Path.Path "m/44'/0'/a'/0/i"))
    by apply lookup_singleton_eq.
  split; [exact H1|].
  destruct (with_account_with_index_non_mutating _ _ _ 3 H1) as [Ha _].
  destruct (Ha eq_refl) as (t2 & h2 & E & Hne & Hnew & _ & Hold & Hvar).
  exists t2, h2. repeat split; done.
Defined.

(** ** The diagonal walk over a grid *)

Section DiagonalFacts.
Import Diagonal.
Variables max_index max_account : Z.
Hypothesis max_index_nonneg : 0 <= max_index.
Hypothesis max_account_nonneg : 0 <= max_account.

Local Abbreviation in_grid := (in_grid max_index max_account).
Local Abbreviation advance := (advance max_index max_account).
Local Abbreviation walk := (walk max_index max_account).

Ltac unfold_cells :=
  unfold Diagonal.in_grid, Diagonal.before, Diagonal.advance in *;
  simpl in *.

Ltac split_advance :=
  repeat match goal with
    | |- context [?a =? ?b] => destruct (Z.eqb_spec a b)
    | H : context [?a =? ?b] |- _ => destruct (Z.eqb_spec a b)
    end; simpl in *.

Lemma before_irrefl c : ~ before c c.
Proof. unfold before. lia. Qed.

Lemma before_trans c1 c2 c3 : before c1 c2 -> before c2 c3 -> before c1 c3.
Proof. unfold before. lia. Qed.

Lemma advance_before c : in_grid c -> before c (advance c).
Proof. destruct c as [i a]. unfold_cells. intros ?. split_advance; lia. Qed.

Lemma advance_in_grid c :
  in_grid c -> c <> (max_index, max_account) -> in_grid (advance c).
Proof.
  destruct c as [i a]. unfold_cells. intros ? Hne.
  assert (i <> max_index \/ a <> max_account)
    by (destruct (decide (i = max_index)); [right|left]; congruence).
  split_advance; lia.
Qed.

Lemma advance_last :
  advance (max_index, max_account) = (max_index, max_account + 1).
Proof.
  unfold_cells. rewrite Z.eqb_refl, orb_true_r. f_equal; lia.
Qed.

(** No cell of the grid lies between a cell and the next cursor. *)
Lemma advance_no_gap c g :
  in_grid c -> in_grid g -> before c g ->
  g = advance c \/ before (advance c) g.
Proof.
  destruct (decide (g = advance c)) as [|Hne]; [by left|right].
  destruct c as [i a], g as [j b].
  assert (j <> (advance (i, a)).1 \/ b <> (advance (i, a)).2).
  { destruct (advance (i, a)) as [i' a']. simpl.
    destruct (decide (j = i')); [right|left]; congruence. }
  clear Hne. unfold_cells. split_advance; lia.
Qed.

Lemma grid_last c : in_grid c -> c = (max_index, max_account) \/ before c (max_index, max_account).
Proof.
  destruct c as [i a]. unfold_cells. intros ?.
  destruct (decide (i = max_index /\ a = max_account)) as [[-> ->]|];
    [by left|right; lia].
Qed.

Lemma grid_first c : in_grid c -> c = (0, 0) \/ before (0, 0) c.
Proof.
  destruct c as [i a]. unfold_cells. intros ?.
  destruct (decide (i = 0 /\ a = 0)) as [[-> ->]|]; [by left|right; lia].
Qed.

(** The walk from a cell of the grid ends. *)
Lemma walk_exists c : in_grid c -> exists cs, walk c cs.
Proof.
  remember (Z.to_nat ((max_index + max_account - (c.1 + c.2))
                      * (max_account + 1) + (max_account - c.2))) as n eqn:En.
  revert c En. induction (lt_wf n) as [n _ IH]. intros c -> Hc.
  destruct (decide (c = (max_index, max_account))) as [->|Hne].
  - exists [(max_index, max_account)]. constructor; simpl; [lia|lia|].
    rewrite advance_last. constructor. simpl. lia.
  - pose proof (advance_in_grid c Hc Hne) as Hin.
    pose proof (advance_before c Hc) as Hb.
    assert (Hlt :
      (Z.to_nat ((max_index + max_account - ((advance c).1 + (advance c).2))
                 * (max_account + 1) + (max_account - (advance c).2))
       < Z.to_nat ((max_index + max_account - (c.1 + c.2))
                   * (max_account + 1) + (max_account - c.2)))%nat).
    { destruct c as [i a]. destruct (advance (i, a)) as [i' a'].
      unfold Diagonal.in_grid, Diagonal.before in *. simpl in *.
      apply Z2Nat.inj_lt; nia. }
    destruct (IH _ Hlt (advance c) eq_refl Hin) as [cs Hcs].
    exists (c :: cs). constructor; [apply Hc..|done].
Qed.

(** The cells of a walk are in the grid and strictly ascending. *)
Lemma walk_sorted c cs :
  walk c cs -> in_grid c ->
  Forall in_grid cs /\ StronglySorted before cs
  /\ Forall (fun g => g = c \/ before c g) cs.
Proof.
  induction 1 as [c Hout|c cs Hi Ha Hw IH]; intros Hc.
  - split; [|split]; constructor.
  - destruct (decide (c = (max_index, max_account))) as [->|Hne].
    + rewrite advance_last in Hw. inversion Hw as [? Hout|]; subst.
      * split; [|split].
        -- constructor; [exact Hc|constructor].
        -- repeat constructor.
        -- constructor; [by left|constructor].
      * simpl in *. lia.
    + destruct (IH (advance_in_grid c Hc Hne)) as (Hg & Hs & Hf).
      pose proof (advance_before c Hc) as Hb.
      assert (Hall : Forall (before c) cs).
      { eapply Forall_impl; [exact Hf|]. intros g [->|Hg']; [done|].
        by eapply before_trans. }
      split; [|split].
      * by constructor.
      * by constructor.
      * constructor; [by left|].
        eapply Forall_impl; [exact Hall|]. by right.
Qed.

(** The walk meets every cell of the grid from its start on. *)
Lemma walk_covers c cs :
  walk c cs -> in_grid c ->
  forall g, in_grid g -> g = c \/ before c g -> g ∈ cs.
Proof.
  induction 1 as [c Hout|c cs Hi Ha Hw IH]; intros Hc g Hg Hcg.
  - destruct Hc as [? ?]. lia.
  - destruct Hcg as [->|Hcg]; [by left|]. right.
    destruct (decide (c = (max_index, max_account))) as [->|Hne].
    + destruct (grid_last g Hg) as [->|Hlast].
      * by apply before_irrefl in Hcg.
      * exfalso. eapply before_irrefl, before_trans; eauto.
    + apply IH; [by apply advance_in_grid|done|].
      by apply advance_no_gap.
Qed.

Lemma elem_of_grid c : c ∈ grid max_index max_account <-> in_grid c.
Proof.
  unfold grid. destruct c as [i a].
  unfold Diagonal.in_grid. simpl.
  transitivity (i ∈ seqZ 0 (max_index + 1) /\ a ∈ seqZ 0 (max_account + 1)).
  - rewrite !list_elem_of_In. apply in_prod_iff.
  - rewrite !elem_of_seqZ. lia.
Qed.

Lemma NoDup_list_prod {A B} (l : list A) (k : list B) :
  NoDup l -> NoDup k -> NoDup (list_prod l k).
Proof.
  intros Hl Hk. induction Hl as [|x l Hx Hl IH]; simpl; [constructor|].
  apply NoDup_app. split; [|split; [|done]].
  - change (NoDup (pair x <$> k)). apply NoDup_fmap_2; [|done].
    by intros ? ? [= ->].
  - intros [a b] Hab Hin.
    change ((a, b) ∈ pair x <$> k) in Hab.
    apply list_elem_of_fmap in Hab as (b' & [= -> ->] & _).
    apply list_elem_of_In, in_prod_iff in Hin as [Hin _].
    by apply list_elem_of_In in Hin.
Qed.

Lemma length_grid :
  length (grid max_index max_account)
  = Z.to_nat ((max_index + 1) * (max_account + 1)).
Proof.
  unfold grid, cell. rewrite length_prod, !length_seqZ. lia.
Qed.

(** The walk from the origin enumerates the grid. *)
Lemma walk_origin cs :
  walk (0, 0) cs ->
  (forall c, c ∈ cs <-> in_grid c)
  /\ StronglySorted before cs
  /\ length cs = Z.to_nat ((max_index + 1) * (max_account + 1)).
Proof.
  intros Hw.
  assert (H0 : in_grid (0, 0)) by (unfold Diagonal.in_grid; simpl; lia).
  destruct (walk_sorted _ _ Hw H0) as (Hg & Hs & _).
  assert (Hiff : forall c, c ∈ cs <-> in_grid c).
  { intros c. split.
    - intros Hin. by eapply Forall_forall in Hg.
    - intros Hc. eapply walk_covers; eauto. by apply grid_first. }
  split; [done|]. split; [done|].
  rewrite <- length_grid. apply Permutation_length, NoDup_Permutation.
  - clear -Hs. induction Hs as [|c cs Hs IH Hall]; constructor; [|done].
    intros Hin. eapply Forall_forall in Hall; [|exact Hin].
    by apply before_irrefl in Hall.
  - unfold grid. apply NoDup_list_prod; apply NoDup_seqZ.
  - intros c. by rewrite Hiff, elem_of_grid.
Qed.

End DiagonalFacts.

(** ** One search: [DescriptorScriptIterator] *)

Lemma take_padding {A} (l : list A) (x : A) (n m : nat) :
  (n <= m)%nat -> take n (l ++ replicate m x) = take n (l ++ replicate n x).
Proof.
  intros Hnm. rewrite !take_app, !take_replicate. do 2 f_equal. lia.
Qed.

Section SearchFacts.
Context `{Capabilities}.
Import DescriptorScriptIterator.
Variable master_key : BIP32.

Lemma next_script_exhausted self :
  ~ (index self <= max_index self /\ account self <= max_account self) ->
  next_script self master_key = inr (None, self).
Proof.
  intros Hout. unfold next_script.
  destruct (index self >? max_index self) eqn:E1; [done|].
  destruct (account self >? max_account self) eqn:E2; [done|].
  exfalso. apply Hout. lia.
Qed.

Lemma next_script_active self indexes :
  index self <= max_index self -> account self <= max_account self ->
  Path.to_list (Path.with_account (path self) (account self))
    (Some (index self)) None = inr indexes ->
  next_script self master_key =
  inr (Some (build_output_script (script_type self)
               (get_pubkey_from_path master_key indexes),
             Path.with_account (path self) (account self),
             script_type self),
       let c := Diagonal.advance (max_index self) (max_account self)
                  (cursor self) in
       set_cursor self c.1 c.2).
Proof.
  intros Hi Ha Hl. unfold next_script.
  replace (index self >? max_index self) with false by (symmetry; lia).
  replace (account self >? max_account self) with false by (symmetry; lia).
  simpl. rewrite Hl. simpl. unfold Ok, Diagonal.advance, cursor. simpl.
  by destruct ((index self =? 0) || (account self =? max_account self)).
Qed.

(** A call returns null exactly when the cursor is outside the grid, and
    then leaves the iterator as it is. *)
Lemma next_script_null self self' :
  next_script self master_key = inr (None, self') ->
  self' = self
  /\ ~ (index self <= max_index self /\ account self <= max_account self).
Proof.
  unfold next_script.
  destruct ((index self >? max_index self)
            || (account self >? max_account self)) eqn:E.
  - intros [= <-]. split; [done|]. lia.
  - destruct (Path.to_list _ _ _); simpl; [done|]. unfold Ok. congruence.
Qed.

Lemma next_script_some self r self' :
  next_script self master_key = inr (Some r, self') ->
  index self <= max_index self /\ account self <= max_account self
  /\ script_at self master_key (cursor self) = Some r
  /\ self' = (let c := Diagonal.advance (max_index self) (max_account self)
                         (cursor self) in set_cursor self c.1 c.2).
Proof.
  intros Hn.
  destruct (decide (index self <= max_index self
                    /\ account self <= max_account self)) as [[Hi Ha]|Hout].
  - split; [done|]. split; [done|].
    unfold script_at, cursor. simpl.
    destruct (Path.to_list (Path.with_account (path self) (account self))
                (Some (index self)) None) as [e|l] eqn:El.
    + unfold next_script in Hn. rewrite El in Hn.
      destruct ((index self >? max_index self)
                || (account self >? max_account self));
        simpl in Hn; unfold Ok in Hn; congruence.
    + rewrite (next_script_active self l Hi Ha El) in Hn.
      by injection Hn as <- <-.
  - rewrite (next_script_exhausted self Hout) in Hn. congruence.
Qed.

Lemma visited_exhausted self n :
  ~ (index self <= max_index self /\ account self <= max_account self) ->
  visited n self master_key = [].
Proof.
  intros Hout. induction n as [|n IH]; simpl; [done|].
  by rewrite (next_script_exhausted self Hout).
Qed.

Lemma outcomes_exhausted self n :
  ~ (index self <= max_index self /\ account self <= max_account self) ->
  outcomes n self master_key = replicate n (Ok None).
Proof.
  intros Hout. induction n as [|n IH]; simpl; [done|].
  rewrite (next_script_exhausted self Hout). by rewrite IH.
Qed.

(** The calls follow the walk of the cursor. *)
Lemma calls_follow_walk self cs :
  Diagonal.walk (max_index self) (max_account self) (cursor self) cs ->
  0 <= max_index self -> 0 <= max_account self ->
  0 <= index self -> 0 <= account self ->
  resolves self ->
  exists rs,
    yields master_key self rs
    /\ Forall2 (fun c r => script_at self master_key c = Some r) cs rs
    /\ (forall n, visited n self master_key = take n cs)
    /\ (forall n, outcomes n self master_key
                  = take n ((Ok ∘ Some <$> rs) ++ replicate n (Ok None))).
Proof.
  intros Hw. remember (cursor self) as c eqn:Ec.
  remember (max_index self) as mi eqn:Emi.
  remember (max_account self) as ma eqn:Ema.
  revert self Ec Emi Ema.
  induction Hw as [c Hout|c cs Hi Ha Hw IH];
    intros self -> -> -> Hmi Hma Hi0 Ha0 Hres; simpl in *.
  - exists []. split; [|split; [|split]].
    + constructor. by apply next_script_exhausted.
    + constructor.
    + intros n. rewrite visited_exhausted by done. by rewrite take_nil.
    + intros n. rewrite outcomes_exhausted by done. simpl.
      by rewrite take_ge by (rewrite length_replicate; lia).
  - destruct (Hres (index self) (account self)) as [l Hl]; [lia..|].
    pose proof (next_script_active self l Hi Ha Hl) as Hn.
    set (c' := Diagonal.advance (max_index self) (max_account self)
                 (cursor self)) in *.
    set (self' := set_cursor self c'.1 c'.2) in *. simpl in Hn.
    assert (Hc' : 0 <= c'.1 /\ 0 <= c'.2).
    { unfold c', Diagonal.advance, cursor. simpl.
      destruct ((index self =? 0) || (account self =? max_account self))
        eqn:E; simpl; lia. }
    destruct (IH self') as (rs & Hy & Hf & Hv & Ho);
      [by destruct c'|done|done|done|done|apply Hc'|apply Hc'|exact Hres|].
    eexists (_ :: rs). split; [|split; [|split]].
    + econstructor; [exact Hn|exact Hy].
    + constructor; [|exact Hf].
      unfold script_at, cursor. simpl. by rewrite Hl.
    + intros [|n]; simpl; [done|]. rewrite Hn. by rewrite Hv.
    + intros [|n]; simpl; [done|]. rewrite Hn. f_equal. rewrite Ho.
      symmetry. apply (take_padding _ _ n (S n)). lia.
Qed.

End SearchFacts.

Lemma StronglySorted_lookup {A} (R : A -> A -> Prop) (l : list A) p q x y :
  StronglySorted R l -> (p < q)%nat ->
  l !! p = Some x -> l !! q = Some y -> R x y.
Proof.
  intros Hs. revert p q. induction Hs as [|z l Hs IH Hall]; intros p q Hpq Hp Hq.
  - by rewrite lookup_nil in Hp.
  - destruct q as [|q]; [lia|]. simpl in Hq. destruct p as [|p]; simpl in Hp.
    + injection Hp as ->. eapply Forall_forall in Hall; [exact Hall|].
      by eapply list_elem_of_lookup_2.
    + eapply (IH p q); [lia|done..].
Qed.

(** C1, as the code has it.  From a fresh cursor and bounds that are not
    negative, for a template that resolves on every cell of the grid (and
    a key derivation and script construction that return), successive
    calls of [next_script] visit the cells of the grid
    [[0, max_index] x [0, max_account]], each once, in anti-diagonal order:
    a cell visited earlier lies on an earlier diagonal, or on the same
    diagonal with a smaller account.  For [max_index = 2] and
    [max_account = 1] the order is (0,0), (1,0), (0,1), (2,0), (1,1),
    (2,1). *)
Theorem next_script_anti_diagonal_order `{Capabilities} :
  (forall (self : DescriptorScriptIterator.t) (master_key : BIP32),
     DescriptorScriptIterator.index self = 0 ->
     DescriptorScriptIterator.account self = 0 ->
     0 <= DescriptorScriptIterator.max_index self ->
     0 <= DescriptorScriptIterator.max_account self ->
     DescriptorScriptIterator.resolves self ->
     exists cells : list (Z * Z),
       (forall n,
          DescriptorScriptIterator.visited n self master_key = take n cells)
       /\ (forall c,
             c ∈ cells <->
             (0 <= c.1 <= DescriptorScriptIterator.max_index self)
             /\ (0 <= c.2 <= DescriptorScriptIterator.max_account self))
       /\ (forall p q c c',
             (p < q)%nat -> cells !! p = Some c -> cells !! q = Some c' ->
             c.1 + c.2 < c'.1 + c'.2
             \/ (c.1 + c.2 = c'.1 + c'.2 /\ c.2 < c'.2)))
  /\ (forall master_key : BIP32,
        DescriptorScriptIterator.visited 7
          (DescriptorScriptIterator.__init__
             (Path.Path "m/44'/0'/a'/0/i") LEGACY 2 1) master_key
        = [(0, 0); (1, 0); (0, 1); (2, 0); (1, 1); (2, 1)]).
Proof.
  split; [|intros master_key; by vm_compute].
  intros self master_key Hi Ha Hmi Hma Hres.
  assert (H0 : Diagonal.in_grid (DescriptorScriptIterator.max_index self)
                 (DescriptorScriptIterator.max_account self) (0, 0))
    by (unfold Diagonal.in_grid; simpl; lia).
  destruct (walk_exists _ _ Hmi Hma _ H0) as [cells Hw].
  destruct (walk_origin _ _ Hmi Hma _ Hw) as (Hin & Hs & _).
  destruct (calls_follow_walk master_key self cells) as (rs & _ & _ & Hv & _);
    [unfold DescriptorScriptIterator.cursor; by rewrite Hi, Ha|done|done
    |lia|lia|done|].
  exists cells. split; [done|]. split; [exact Hin|].
  intros p q c c' Hpq Hp Hq.
  exact (StronglySorted_lookup _ _ _ _ _ _ Hs Hpq Hp Hq).
Qed.

Lemma sample_template_resolves (script_type : ScriptType) :
  DescriptorScriptIterator.resolves
    (DescriptorScriptIterator.__init__
       (Path.Path "m/44'/0'/a'/0/i") script_type 2 1).
Proof.
  intros index account Hi Ha. simpl in Hi, Ha.
  assert (index = 0 \/ index = 1 \/ index = 2) as [->|[->| ->]] by lia;
    (assert (account = 0 \/ account = 1) as [->| ->] by lia);
    eexists; by vm_compute.
Qed.

Lemma next_script_anti_diagonal_order_witness :
  exists cells : list (Z * Z),
    (forall n,
       @DescriptorScriptIterator.visited sample_capabilities n
         (DescriptorScriptIterator.__init__
            (Path.Path "m/44'/0'/a'/0/i") LEGACY 2 1) tt
       = take n cells)
    /\ (1, 1) ∈ cells.
Proof.
  destruct (@next_script_anti_diagonal_order sample_capabilities) as [Hgen _].
  destruct (Hgen (DescriptorScriptIterator.__init__
                    (Path.Path "m/44'/0'/a'/0/i") LEGACY 2 1) tt)
    as (cells & Hv & Hin & _);
    [reflexivity|reflexivity|simpl; lia|simpl; lia
    |apply sample_template_resolves|].
  exists cells. split; [exact Hv|]. apply Hin. simpl. lia.
Defined.

(** The order fails for a template that does not resolve.  With [m/x/i]
    and both bounds at 0 the cursor is fresh, the bounds are not negative
    and the cell (0,0) lies in the grid, but every call raises
    [ValueError]: no cell is ever visited, and no list of cells that holds
    the grid is the list of the visits. *)
Lemma next_script_order_fails_unresolved :
  let self :=
    DescriptorScriptIterator.__init__ (Path.Path "m/x/i") LEGACY 0 0 in
  (DescriptorScriptIterator.index self = 0
   /\ DescriptorScriptIterator.account self = 0
   /\ 0 <= DescriptorScriptIterator.max_index self
   /\ 0 <= DescriptorScriptIterator.max_account self)
  /\ @DescriptorScriptIterator.outcomes sample_capabilities 3 self tt
     = [Raise ValueError; Raise ValueError; Raise ValueError]
  /\ @DescriptorScriptIterator.visited sample_capabilities 3 self tt = []
  /\ ~ (exists cells : list (Z * Z),
          (forall n,
             @DescriptorScriptIterator.visited sample_capabilities n self tt
             = take n cells)
          /\ (forall c,
                c ∈ cells <->
                (0 <= c.1 <= DescriptorScriptIterator.max_index self)
                /\ (0 <= c.2 <= DescriptorScriptIterator.max_account self))).
Proof.
  cbv zeta. split; [by vm_compute|]. split; [by vm_compute|].
  split; [by vm_compute|].
  intros (cells & Hv & Hin).
  specialize (Hv 1%nat).
  assert (E : @DescriptorScriptIterator.visited sample_capabilities 1
                (DescriptorScriptIterator.__init__ (Path.Path "m/x/i")
                   LEGACY 0 0) tt = []) by (vm_compute; reflexivity).
  rewrite E in Hv. destruct cells as [|c cells]; [|done].
  assert (H0 : (0, 0) ∈ @nil (Z * Z)) by (apply Hin; simpl; lia).
  by apply elem_of_nil in H0.
Qed.

(** C3, as the code has it.  For a template that resolves on its grid and
    bounds that are not negative once clamped (a bound is clamped to 0
    when its placeholder is absent from the template), and for a key
    derivation and script construction that return, repeated calls of
    [next_script] return a non-null result exactly
    [total_scripts = (max_index+1) x (max_account+1)] times and null on
    every call after these. *)
Theorem next_script_returns_total_scripts `{Capabilities}
    (path : Path.t) (script_type : ScriptType) (max_index max_account : Z)
    (master_key : BIP32) :
  let self :=
    DescriptorScriptIterator.__init__ path script_type max_index max_account in
  let mi := if Path.has_variable_index path then max_index else 0 in
  let ma := if Path.has_variable_account path then max_account else 0 in
  0 <= mi -> 0 <= ma ->
  DescriptorScriptIterator.resolves self ->
  DescriptorScriptIterator.total_scripts self = (mi + 1) * (ma + 1)
  /\ exists rs : list script_result,
       length rs = Z.to_nat (DescriptorScriptIterator.total_scripts self)
       /\ forall n,
            DescriptorScriptIterator.outcomes n self master_key
            = take n ((Ok ∘ Some <$> rs) ++ replicate n (Ok None)).
Proof.
  intros self mi ma Hmi Hma Hres. split; [done|].
  assert (H0 : Diagonal.in_grid mi ma (0, 0))
    by (unfold Diagonal.in_grid; simpl; lia).
  destruct (walk_exists _ _ Hmi Hma _ H0) as [cells Hw].
  destruct (walk_origin _ _ Hmi Hma _ Hw) as (_ & _ & Hlen).
  destruct (calls_follow_walk master_key self cells) as (rs & _ & Hf & _ & Ho);
    [done..|].
  exists rs. split; [|done].
  apply Forall2_length in Hf. etrans; [symmetry; exact Hf|exact Hlen].
Qed.

Lemma next_script_returns_total_scripts_witness :
  exists rs : list script_result,
    length rs = 6%nat
    /\ forall n,
         @DescriptorScriptIterator.outcomes sample_capabilities n
           (DescriptorScriptIterator.__init__
              (Path.Path "m/44'/0'/a'/0/i") LEGACY 2 1) tt
         = take n ((Ok ∘ Some <$> rs) ++ replicate n (Ok None)).
Proof.
  destruct (@next_script_returns_total_scripts sample_capabilities
              (Path.Path "m/44'/0'/a'/0/i") LEGACY 2 1 tt)
    as (_ & rs & Hlen & Ho);
    [simpl; lia|simpl; lia|apply sample_template_resolves|].
  exists rs. split; [exact Hlen|exact Ho].
Defined.

(** The count fails outside these conditions.  With both bounds at [-2]
    [total_scripts] is 1 and the first call already returns null; with a
    template that does not resolve [total_scripts] is 1 and every call
    raises. *)
Lemma next_script_count_fails :
  (let self :=
     DescriptorScriptIterator.__init__
       (Path.Path "m/44'/0'/a'/0/i") LEGACY (-2) (-2) in
   DescriptorScriptIterator.total_scripts self = 1
   /\ @DescriptorScriptIterator.outcomes sample_capabilities 2 self tt
      = [Ok None; Ok None])
  /\ (let self :=
        DescriptorScriptIterator.__init__ (Path.Path "m/x/i") LEGACY 0 0 in
      DescriptorScriptIterator.total_scripts self = 1
      /\ @DescriptorScriptIterator.outcomes sample_capabilities 2 self tt
         = [Raise ValueError; Raise ValueError]).
Proof. by vm_compute. Qed.

(** C10. The path of a non-null result is the template with the account
    placeholder alone replaced: a free index placeholder is still free in
    it, and two results of one template at the same account carry equal
    paths, whatever their indexes. *)
Theorem next_script_path_binds_account_only `{Capabilities}
    (self : DescriptorScriptIterator.t) (master_key : BIP32)
    (script : bytes) (p : Path.t) (ty : ScriptType)
    (self' : DescriptorScriptIterator.t) :
  DescriptorScriptIterator.next_script self master_key
  = inr (Some (script, p, ty), self') ->
  p = Path.with_account (DescriptorScriptIterator.path self)
        (DescriptorScriptIterator.account self)
  /\ (Path.has_variable_index (DescriptorScriptIterator.path self) = true ->
      Path.has_variable_index p = true)
  /\ (forall other script2 p2 ty2 other',
        DescriptorScriptIterator.path other
        = DescriptorScriptIterator.path self ->
        DescriptorScriptIterator.account other
        = DescriptorScriptIterator.account self ->
        DescriptorScriptIterator.next_script other master_key
        = inr (Some (script2, p2, ty2), other') ->
        Path.eq p p2 = true /\ p = p2).
Proof.
  intros Hn. apply next_script_some in Hn as (_ & _ & Hr & _).
  unfold DescriptorScriptIterator.script_at in Hr. simpl in Hr.
  destruct (Path.to_list _ _ _) in Hr; [done|]. injection Hr as _ <- _.
  split; [done|]. split.
  - unfold Path.has_variable_index, Path.with_account. simpl.
    rewrite !find_occurs. by apply occurs_replace.
  - intros other script2 p2 ty2 other' Hp Ha Hn2.
    apply next_script_some in Hn2 as (_ & _ & Hr & _).
    unfold DescriptorScriptIterator.script_at in Hr. simpl in Hr.
    destruct (Path.to_list _ _ _) in Hr; [done|]. injection Hr as _ <- _.
    rewrite Hp, Ha. split; [|done].
    unfold Path.eq. apply String.eqb_refl.
Qed.

Lemma next_script_path_binds_account_only_witness :
  let self :=
    DescriptorScriptIterator.__init__
      (Path.Path "m/44'/0'/a'/0/i") LEGACY 2 1 in
  exists script self',
    @DescriptorScriptIterator.next_script sample_capabilities self tt
    = inr (Some (script, Path.Path "m/44'/0'/0'/0/i", LEGACY), self')
    /\ Path.has_variable_index (Path.Path "m/44'/0'/0'/0/i") = true.
Proof.
  simpl. eexists _, _.
  assert (Hn :
    @DescriptorScriptIterator.next_script sample_capabilities
      (DescriptorScriptIterator.__init__
         (Path.Path "m/44'/0'/a'/0/i") LEGACY 2 1) tt
    = inr (Some (_, Path.Path "m/44'/0'/0'/0/i", LEGACY), _))
    by (vm_compute; reflexivity).
  split; [exact Hn|].
  destruct (@next_script_path_binds_account_only sample_capabilities
              _ _ _ _ _ _ Hn) as (_ & Hfree & _).
  apply Hfree. reflexivity.
Defined.

(** ** Merging by rounds *)

Section RoundRobinFacts.
Import RoundRobin.
Context {A : Type}.
Implicit Types (L : list (list A)) (l : list A).

Lemma round_0 L : round 0 L = heads L.
Proof.
  unfold round, heads. induction L as [|l L IH]; [done|].
  by destruct l; csimpl; rewrite IH.
Qed.

Lemma round_S t L : round (S t) L = round t (tails L).
Proof.
  unfold round, tails. induction L as [|l L IH]; [done|].
  destruct l as [|x l]; csimpl; [done|]. by rewrite IH.
Qed.

Lemma round_app t L1 L2 : round t (L1 ++ L2) = round t L1 ++ round t L2.
Proof. apply omap_app. Qed.

Lemma depth_cons l L : depth (l :: L) = (length l `max` depth L)%nat.
Proof. done. Qed.

Lemma depth_tails L : depth (tails L) = pred (depth L).
Proof.
  induction L as [|l L IH]; [done|].
  rewrite depth_cons. destruct l as [|x l]; simpl.
  - exact IH.
  - change (depth (l :: tails L) = pred (S (length l) `max` depth L)%nat).
    rewrite depth_cons, IH. lia.
Qed.

Lemma depth_0 L : depth L = 0%nat -> heads L = [] /\ tails L = [].
Proof.
  induction L as [|l L IH]; [done|].
  rewrite depth_cons. destruct l as [|x l]; simpl; [|lia].
  intros HL. by apply IH.
Qed.

(** The merged sequence is the first round followed by the merge of
    what is left. *)
Lemma merge_unfold L : merge L = heads L ++ merge (tails L).
Proof.
  unfold merge. rewrite depth_tails.
  destruct (depth L) as [|d] eqn:Ed.
  - destruct (depth_0 L Ed) as [-> _]. done.
  - simpl. rewrite round_0. f_equal.
    rewrite <- fmap_S_seq, <- list_fmap_compose. f_equal.
    apply list_fmap_ext. intros _ t _. simpl. apply round_S.
Qed.

Lemma merge_nil : merge (@nil (list A)) = [].
Proof. done. Qed.

Lemma concat_heads_tails L : concat L ≡ₚ heads L ++ concat (tails L).
Proof.
  induction L as [|l L IH]; [done|].
  destruct l as [|x l]; simpl; [exact IH|].
  change (x :: l ++ concat L ≡ₚ x :: heads L ++ l ++ concat (tails L)).
  constructor. rewrite IH.
  rewrite !app_assoc. apply Permutation_app_tail, Permutation_app_comm.
Qed.

(** Merging reorders the elements of the sequences, nothing more. *)
Lemma merge_Permutation L : merge L ≡ₚ concat L.
Proof.
  remember (depth L) as d eqn:Ed. revert L Ed.
  induction d as [|d IH]; intros L Ed.
  - unfold merge. rewrite <- Ed. simpl.
    clear -Ed. induction L as [|l L IH]; [done|].
    rewrite depth_cons in Ed. destruct l; simpl in *; [|lia]. by apply IH.
  - rewrite merge_unfold, concat_heads_tails.
    apply Permutation_app_head, IH. rewrite depth_tails. lia.
Qed.

Lemma length_merge L : length (merge L) = sum_list_with length L.
Proof.
  rewrite (Permutation_length (merge_Permutation L)).
  induction L as [|l L IH]; [done|]. simpl. by rewrite length_app, IH.
Qed.

End RoundRobinFacts.

Section SlotFacts.
Import RoundRobin.
Context {A : Type}.
Implicit Types (L : list (list A)) (l : list A).

Lemma active_app L1 L2 t : active (L1 ++ L2) t = (active L1 t + active L2 t)%nat.
Proof. unfold active. by rewrite round_app, length_app. Qed.

Lemma active_cons l L t :
  active (l :: L) t = ((match l !! t with Some _ => 1 | None => 0 end) + active L t)%nat.
Proof. unfold active, round. csimpl. by destruct (l !! t). Qed.

Lemma active_mono L t : (active L (S t) <= active L t)%nat.
Proof.
  induction L as [|l L IH]; [done|]. rewrite !active_cons.
  destruct (l !! S t) eqn:E1, (l !! t) eqn:E2; try lia.
  apply lookup_lt_Some in E1. apply lookup_ge_None in E2. lia.
Qed.

Lemma active_split L j l t :
  L !! j = Some l ->
  active L t
  = (active (take j L) t + (match l !! t with Some _ => 1 | None => 0 end)
     + active (drop (S j) L) t)%nat.
Proof.
  intros Hj.
  replace (active L t)
    with (active (take j L ++ l :: drop (S j) L) t)
    by (by rewrite take_drop_middle).
  rewrite active_app, active_cons. lia.
Qed.

Lemma active_le_length L t : (active L t <= length L)%nat.
Proof.
  induction L as [|l L IH]; [done|]. rewrite active_cons. simpl.
  destruct (l !! t); lia.
Qed.

Lemma length_le_depth L j l : L !! j = Some l -> (length l <= depth L)%nat.
Proof.
  revert j. induction L as [|l' L IH]; intros j Hj; [done|].
  rewrite depth_cons. destruct j as [|j]; simpl in Hj.
  - injection Hj as ->. lia.
  - specialize (IH _ Hj). lia.
Qed.

Lemma lookup_concat_offset (LL : list (list A)) i o l x :
  LL !! i = Some l -> l !! o = Some x ->
  concat LL !! (sum_list_with length (take i LL) + o)%nat = Some x.
Proof.
  revert i. induction LL as [|l' LL IH]; intros i Hi Ho; [done|].
  destruct i as [|i]; simpl in *.
  - injection Hi as ->. by apply lookup_app_l_Some.
  - rewrite lookup_app_r by lia.
    replace (length l' + sum_list_with length (take i LL) + o - length l')%nat
      with (sum_list_with length (take i LL) + o)%nat by lia.
    by apply IH.
Qed.

Lemma lookup_round L j k l x :
  L !! j = Some l -> l !! k = Some x ->
  round k L !! active (take j L) k = Some x.
Proof.
  intros Hj Hk.
  replace (round k L)
    with (round k (take j L) ++ round k (l :: drop (S j) L))
    by (by rewrite <- round_app, take_drop_middle).
  unfold active. rewrite lookup_app_r by lia.
  rewrite Nat.sub_diag. unfold round. csimpl. by rewrite Hk.
Qed.

(** The element of rank [k] of the sequence number [j] sits at its slot
    in the merged sequence. *)
Lemma merge_lookup_slot L j k l x :
  L !! j = Some l -> l !! k = Some x -> merge L !! slot L j k = Some x.
Proof.
  intros Hj Hk. unfold merge, slot.
  pose proof (length_le_depth L j l Hj) as Hd.
  pose proof (lookup_lt_Some _ _ _ Hk) as Hlt.
  assert (Hsum : sum_list_with (active L) (seq 0 k)
                 = sum_list_with length
                     (take k ((fun t => round t L) <$> seq 0 (depth L)))).
  { rewrite <- fmap_take, take_seq, Nat.min_l by lia.
    generalize (seq 0 k). intros ts.
    induction ts as [|t ts IH]; [done|]. simpl. by rewrite IH. }
  rewrite Hsum. eapply lookup_concat_offset.
  - rewrite list_lookup_fmap, lookup_seq_lt by lia. done.
  - simpl. by eapply lookup_round.
Qed.

(** Round-robin fairness, for a sequence [A] placed before a sequence [B]
    in the collection: the element of rank [k+1] of [A] comes after the
    element of rank [k] of [B], and no more than [n - 1] positions after
    it, where [n] counts the sequences that have an element of rank
    [k]. *)
Lemma slot_fair_ordered L (a b k : nat) lA lB :
  (a < b)%nat -> L !! a = Some lA -> L !! b = Some lB ->
  is_Some (lA !! S k) -> is_Some (lB !! k) ->
  (slot L b k < slot L a (S k))%nat
  /\ (slot L a (S k) + 1 <= slot L b k + active L k)%nat.
Proof.
  intros Hab Ha Hb [xA HxA] [xB HxB]. unfold slot.
  rewrite seq_S, sum_list_with_app. simpl.
  pose proof (active_split L b lB k Hb) as HB. rewrite HxB in HB.
  assert (Hta : take b L !! a = Some lA) by by rewrite lookup_take_lt.
  pose proof (active_split (take b L) a lA k Hta) as HA.
  assert (is_Some (lA !! k)) as [? HxA'].
  { apply lookup_lt_is_Some. apply lookup_lt_Some in HxA. lia. }
  rewrite HxA' in HA.
  rewrite take_take, Nat.min_l in HA by lia.
  pose proof (active_mono (take a L) k). lia.
Qed.

(** Without the order of [A] and [B] the distance is bounded by the
    sequences of the two rounds together. *)
Lemma slot_fair_any L (a b k : nat) lA lB :
  L !! a = Some lA -> L !! b = Some lB ->
  is_Some (lA !! S k) -> is_Some (lB !! k) ->
  (slot L b k < slot L a (S k))%nat
  /\ (slot L a (S k) + 1 <= slot L b k + active L k + active L (S k))%nat.
Proof.
  intros Ha Hb [xA HxA] [xB HxB]. unfold slot.
  rewrite seq_S, sum_list_with_app. simpl.
  pose proof (active_split L b lB k Hb) as HB. rewrite HxB in HB.
  pose proof (active_split L a lA (S k) Ha) as HA. rewrite HxA in HA.
  lia.
Qed.

Lemma round_fmap {B} (f : A -> B) L t :
  round t (fmap (M := list) f <$> L) = f <$> round t L.
Proof.
  unfold round. induction L as [|l L IH]; [done|]. csimpl.
  rewrite list_lookup_fmap. destruct (l !! t); csimpl; by rewrite IH.
Qed.

Lemma depth_fmap {B} (f : A -> B) L : depth (fmap (M := list) f <$> L) = depth L.
Proof.
  induction L as [|l L IH]; [done|].
  change (depth ((f <$> l) :: (fmap (M := list) f <$> L)) = depth (l :: L)).
  rewrite !depth_cons, IH. by rewrite length_fmap.
Qed.

(** Merging commutes with a map over the elements. *)
Lemma merge_fmap {B} (f : A -> B) L : merge (fmap (M := list) f <$> L) = f <$> merge L.
Proof.
  unfold merge. rewrite depth_fmap.
  generalize (seq 0 (depth L)). intros ts.
  induction ts as [|t ts IH]; [done|]. csimpl.
  by rewrite fmap_app, round_fmap, IH.
Qed.

End SlotFacts.

(** ** Python list indexing *)

Section PyListFacts.
Import PyList.
Context {A : Type}.
Implicit Types (l : list A).

Lemma position_lt n i j : position n i = inr j -> (j < n)%nat.
Proof.
  unfold position.
  destruct ((0 <=? (if i <? 0 then i + Z.of_nat n else i))
            && ((if i <? 0 then i + Z.of_nat n else i) <? Z.of_nat n)) eqn:E;
    [|done].
  intros [= <-]. lia.
Qed.

Lemma position_nat n j : (j < n)%nat -> position n (Z.of_nat j) = inr j.
Proof.
  intros Hj. unfold position.
  replace (Z.of_nat j <? 0) with false by lia.
  replace ((0 <=? Z.of_nat j) && (Z.of_nat j <? Z.of_nat n)) with true by lia.
  unfold Ok. f_equal. lia.
Qed.

Lemma getitem_middle l1 x l2 :
  getitem (l1 ++ x :: l2) (Z.of_nat (length l1)) = inr x.
Proof.
  unfold getitem. rewrite position_nat by (rewrite length_app; simpl; lia).
  simpl. by rewrite list_lookup_middle.
Qed.

Lemma mutated_middle l1 x l2 y :
  mutated (l1 ++ x :: l2) (Z.of_nat (length l1)) y = l1 ++ y :: l2.
Proof.
  unfold mutated. rewrite position_nat by (rewrite length_app; simpl; lia).
  by rewrite insert_app_r_alt, Nat.sub_diag by lia.
Qed.

Lemma delitem_middle l1 x l2 :
  delitem (l1 ++ x :: l2) (Z.of_nat (length l1)) = inr (l1 ++ l2).
Proof.
  unfold delitem. rewrite position_nat by (rewrite length_app; simpl; lia).
  simpl. unfold Ok. f_equal.
  by rewrite delete_middle.
Qed.

End PyListFacts.

(** ** The scheduler: [ScriptIterator] *)

Section SchedulerFacts.
Context `{Capabilities}.
Import ScriptIterator.

Local Abbreviation search := DescriptorScriptIterator.t.
Local Abbreviation yields := DescriptorScriptIterator.yields.

(** One poll on a search that returns a result: the search is advanced in
    place and the cursor moves on, back to 0 behind the last search. *)
Lemma poll_result self (served waiting : list search) d r d' :
  descriptors self = served ++ d :: waiting ->
  index self = Z.of_nat (length served) ->
  DescriptorScriptIterator.next_script d (master_key self)
  = inr (Some r, d') ->
  _next_descriptor_script self
  = (Ok (Some r),
     set_state self
       (if decide (waiting = []) then 0 else Z.of_nat (length served) + 1)
       (served ++ d' :: waiting)).
Proof.
  intros Hds Hi Hn. unfold _next_descriptor_script.
  rewrite Hds, Hi, getitem_middle, Hn, mutated_middle. simpl.
  unfold set_state. simpl. f_equal.
  rewrite !length_app, Z.geb_leb. simpl length.
  destruct (Z.leb_spec (Z.of_nat (length served + S (length waiting)))
              (Z.of_nat (length served) + 1));
    destruct (decide (waiting = [])) as [->|Hne]; try done.
  - destruct waiting; [done|]. simpl in *. lia.
  - simpl in *. lia.
Qed.

(** One poll on an exhausted search: the search is removed, and the cursor
    stays on its slot, or wraps when the slot is behind the end. *)
Lemma poll_exhausted self (served waiting : list search) d :
  descriptors self = served ++ d :: waiting ->
  index self = Z.of_nat (length served) ->
  DescriptorScriptIterator.next_script d (master_key self) = inr (None, d) ->
  _next_descriptor_script self
  = (Ok None,
     set_state self
       (if decide (waiting = []) then 0 else Z.of_nat (length served))
       (served ++ waiting)).
Proof.
  intros Hds Hi Hn. unfold _next_descriptor_script.
  rewrite Hds, Hi, getitem_middle, Hn, mutated_middle, delitem_middle. simpl.
  unfold set_state. simpl. f_equal.
  rewrite !length_app, Z.geb_leb.
  replace (Z.of_nat (length served) - 1 + 1)
    with (Z.of_nat (length served)) by lia.
  destruct (Z.leb_spec (Z.of_nat (length served + length waiting))
              (Z.of_nat (length served)));
    destruct (decide (waiting = [])) as [->|Hne]; try done.
  - destruct waiting; [done|]. simpl in *. lia.
  - simpl in *. lia.
Qed.

Lemma resume_wrap {A} (P : list (list A)) :
  RoundRobin.resume P [] = RoundRobin.resume [] P.
Proof.
  unfold RoundRobin.resume. simpl. rewrite app_nil_r.
  apply merge_unfold.
Qed.

Lemma resume_exhausted {A} (P S : list (list A)) :
  RoundRobin.resume P ([] :: S) = RoundRobin.resume P S.
Proof. done. Qed.

Lemma resume_result {A} (P S : list (list A)) (x : A) l :
  RoundRobin.resume P ((x :: l) :: S) = x :: RoundRobin.resume (P ++ [l]) S.
Proof.
  unfold RoundRobin.resume. csimpl. by rewrite <- app_assoc.
Qed.

(** One call of [next_script] from the middle of a round returns the next
    result of the merged stream, or null when the stream has ended, and
    leaves the iterator in the middle of a round. *)
Lemma next_script_loop_spec (m : nat) :
  forall fuel mk self served waiting P S,
    length (served ++ waiting) = m -> (m < fuel)%nat ->
    in_round mk self served waiting ->
    Forall2 (yields mk) served P -> Forall2 (yields mk) waiting S ->
    exists outcome self' served' waiting' P' S',
      next_script_loop fuel self = Some (outcome, self')
      /\ in_round mk self' served' waiting'
      /\ Forall2 (yields mk) served' P'
      /\ Forall2 (yields mk) waiting' S'
      /\ match RoundRobin.resume P S with
         | [] => outcome = Ok None /\ RoundRobin.resume P' S' = []
         | r :: rest =>
             outcome = Ok (Some r) /\ RoundRobin.resume P' S' = rest
         end.
Proof.
  induction m as [|m IH];
    intros fuel mk self served waiting P S Hlen Hfuel
      (Hmk & Hds & Hi & Hwrap) HP HS;
    (destruct fuel as [|fuel]; [lia|]).
  - apply length_zero_iff_nil, app_eq_nil in Hlen as [-> ->].
    apply Forall2_nil_inv_l in HP as ->.
    apply Forall2_nil_inv_l in HS as ->.
    exists (Ok None), self, [], [], [], []. simpl. rewrite Hds. simpl.
    repeat split; done || constructor.
  - destruct waiting as [|d waiting].
    { rewrite (Hwrap eq_refl) in Hlen. done. }
    apply Forall2_cons_inv_l in HS as (s & S' & Hd & HS' & ->).
    simpl. rewrite Hds, length_app. simpl.
    replace (Z.of_nat (length served + S (length waiting)) >? 0)
      with true by (symmetry; apply Z.gtb_lt; lia).
    rewrite length_app in Hlen. simpl in Hlen.
    subst mk. inversion Hd as [? Hn|? r d' s' Hn Hd']; subst.
    + (* the polled search is exhausted *)
      rewrite (poll_exhausted self served waiting d Hds Hi Hn).
      rewrite resume_exhausted.
      destruct (decide (waiting = [])) as [->|Hne]; simpl in Hlen.
      * apply Forall2_nil_inv_l in HS' as ->. rewrite resume_wrap.
        apply (IH fuel _ _ [] served [] P); simpl; [lia|lia| |constructor|done].
        unfold in_round, set_state. simpl. rewrite app_nil_r.
        repeat split; done.
      * apply (IH fuel _ _ served waiting P S'); simpl;
          [rewrite length_app; lia|lia| |done|done].
        unfold in_round, set_state. simpl. repeat split; done.
    + (* the polled search returns a result *)
      rewrite (poll_result self served waiting d r d' Hds Hi Hn).
      rewrite resume_result.
      destruct (decide (waiting = [])) as [->|Hne].
      * apply Forall2_nil_inv_l in HS' as ->.
        exists (Ok (Some r)), (set_state self 0 (served ++ [d'])),
          [], (served ++ [d']), [], (P ++ [s']).
        split; [done|]. split.
        { unfold in_round, set_state. simpl. by repeat split. }
        split; [constructor|]. split.
        { apply Forall2_app; [done|]. by constructor. }
        split; [done|]. by rewrite resume_wrap.
      * exists (Ok (Some r)),
          (set_state self (Z.of_nat (length served) + 1)
             (served ++ d' :: waiting)),
          (served ++ [d']), waiting, (P ++ [s']), S'.
        split; [done|]. split.
        { unfold in_round, set_state. simpl. rewrite <- app_assoc.
          split; [done|]. split; [done|]. split; [|done].
          rewrite length_app. simpl. lia. }
        split; [apply Forall2_app; [done|by constructor]|].
        split; [done|]. done.
Qed.

Lemma expected_nil n : expected [] (S n) = Ok None :: expected [] n.
Proof.
  unfold expected. simpl. by f_equal.
Qed.

Lemma expected_cons r rs n :
  expected (r :: rs) (S n) = Ok (Some r) :: expected rs n.
Proof.
  unfold expected. simpl. f_equal.
  exact (take_padding _ _ n (S n) ltac:(lia)).
Qed.

(** Successive calls from the middle of a round return the merged stream,
    then null for ever. *)
Lemma outcomes_resume n :
  forall mk self served waiting P Q,
    in_round mk self served waiting ->
    Forall2 (yields mk) served P -> Forall2 (yields mk) waiting Q ->
    outcomes n self = expected (RoundRobin.resume P Q) n.
Proof.
  induction n as [|n IH]; intros mk self served waiting P Q Hr HP HS; [done|].
  simpl. unfold next_script.
  destruct (next_script_loop_spec (length (served ++ waiting))
              (S (length (descriptors self))) mk self served waiting P Q)
    as (o & self' & served' & waiting' & P' & S' & -> & Hr' & HP' & HS' & Hm);
    [done|destruct Hr as (_ & -> & _); lia|done..|].
  rewrite (IH mk self' served' waiting' P' S') by done.
  destruct (RoundRobin.resume P Q) as [|r rest]; destruct Hm as [-> ->].
  - by rewrite expected_nil.
  - by rewrite expected_cons.
Qed.

(** Successive calls on a fresh collection of searches. *)
Lemma outcomes_merge n mk self F :
  master_key self = mk -> index self = 0 ->
  Forall2 (yields mk) (descriptors self) F ->
  outcomes n self = expected (RoundRobin.merge F) n.
Proof.
  intros Hmk Hi HF.
  rewrite (outcomes_resume n mk self [] (descriptors self) [] F);
    [|by repeat split|constructor|done].
  unfold RoundRobin.resume. simpl. by rewrite <- merge_unfold.
Qed.

End SchedulerFacts.

Section CursorFacts.
Context `{Capabilities}.
Import ScriptIterator.

(** A poll that returns null has removed a search. *)
Lemma poll_null_shrinks self self' :
  _next_descriptor_script self = (Ok None, self') ->
  (length (descriptors self') < length (descriptors self))%nat.
Proof.
  unfold _next_descriptor_script, PyList.getitem, PyList.delitem,
    PyList.mutated, bind, Ok, Raise.
  destruct (PyList.position (length (descriptors self)) (index self))
    as [e|j] eqn:Ej; [by intros ?|].
  pose proof (position_lt _ _ _ Ej) as Hj.
  destruct (descriptors self !! j) as [d|] eqn:Ed; [|by intros ?].
  destruct (DescriptorScriptIterator.next_script d (master_key self))
    as [e|[[r|] d']]; [by intros ?| |].
  - destruct (_ >=? _); by intros ?.
  - rewrite length_insert, Ej.
    destruct (_ >=? _); intros [= <-]; simpl;
      rewrite length_delete, length_insert; try lia.
    all: by rewrite list_lookup_insert_eq.
Qed.

(** The loop of [next_script] ends within its bound of turns. *)
Lemma next_script_loop_total fuel self :
  (length (descriptors self) < fuel)%nat ->
  is_Some (next_script_loop fuel self).
Proof.
  revert self. induction fuel as [|fuel IH]; intros self Hlen; [lia|].
  simpl. destruct (_ >? 0); [|done].
  destruct (_next_descriptor_script self) as [[e|[r|]] self'] eqn:E;
    [done|done|].
  apply IH. apply poll_null_shrinks in E. lia.
Qed.

Lemma next_script_total self : is_Some (next_script self).
Proof. apply next_script_loop_total. lia. Qed.

(** A poll keeps the cursor inside the collection. *)
Lemma poll_cursor_valid self :
  cursor_valid self -> descriptors self <> [] ->
  cursor_valid (_next_descriptor_script self).2.
Proof.
  intros [Hnil|Hi] Hne; [done|].
  assert (Hlt : (Z.to_nat (index self) < length (descriptors self))%nat)
    by lia.
  destruct (lookup_lt_is_Some_2 _ _ Hlt) as [d Hd].
  pose proof (take_drop_middle _ _ _ Hd) as Hds. symmetry in Hds.
  assert (Hidx : index self
                 = Z.of_nat (length (take (Z.to_nat (index self))
                                       (descriptors self)))).
  { rewrite length_take. lia. }
  set (served := take (Z.to_nat (index self)) (descriptors self)) in *.
  set (waiting := drop (S (Z.to_nat (index self))) (descriptors self)) in *.
  destruct (DescriptorScriptIterator.next_script d (master_key self))
    as [e|[[r|] d']] eqn:En.
  - unfold _next_descriptor_script.
    rewrite Hds, Hidx, getitem_middle, En. simpl. by right.
  - rewrite (poll_result self served waiting d r d' Hds Hidx En).
    unfold cursor_valid, set_state. simpl. right.
    rewrite length_app. simpl.
    destruct (decide (waiting = [])) as [->|Hw]; [simpl; lia|].
    destruct waiting; [done|]. simpl. lia.
  - pose proof (next_script_null _ _ _ En) as [-> _].
    rewrite (poll_exhausted self served waiting d Hds Hidx En).
    unfold cursor_valid, set_state. simpl.
    destruct (decide (waiting = [])) as [->|Hw].
    + rewrite app_nil_r. destruct served; [by left|right; simpl; lia].
    + right. rewrite length_app. destruct waiting; [done|]. simpl. lia.
Qed.

Lemma next_script_loop_cursor_valid fuel self outcome self' :
  cursor_valid self ->
  next_script_loop fuel self = Some (outcome, self') ->
  cursor_valid self'.
Proof.
  revert self. induction fuel as [|fuel IH]; intros self Hv; [done|].
  simpl. destruct (_ >? 0) eqn:Elen; [|by intros [= <- <-]].
  assert (Hne : descriptors self <> []).
  { intros E. rewrite E in Elen. done. }
  pose proof (poll_cursor_valid self Hv Hne) as Hv'.
  destruct (_next_descriptor_script self) as [[e|[r|]] self1]; simpl in Hv'.
  - by intros [= <- <-].
  - by intros [= <- <-].
  - by apply IH.
Qed.

End CursorFacts.

(** C9. The cursor of a [ScriptIterator] is valid after construction, and
    a call of [next_script] on an iterator with a valid cursor returns (or
    raises) and leaves the cursor valid: the collection is empty, or
    [0 <= index < len(descriptors)].  Every poll of
    [_next_descriptor_script] keeps it so, the removal of an exhausted
    search included. *)
Theorem scheduler_cursor_valid `{Capabilities} :
  (forall (master_key : BIP32) (max_index max_account : Z),
     let self := ScriptIterator.__init__ master_key max_index max_account in
     ScriptIterator.descriptors self = []
     \/ 0 <= ScriptIterator.index self
        < Z.of_nat (length (ScriptIterator.descriptors self)))
  /\ (forall self : ScriptIterator.t,
        (ScriptIterator.descriptors self = []
         \/ 0 <= ScriptIterator.index self
            < Z.of_nat (length (ScriptIterator.descriptors self))) ->
        exists outcome self',
          ScriptIterator.next_script self = Some (outcome, self')
          /\ (ScriptIterator.descriptors self' = []
              \/ 0 <= ScriptIterator.index self'
                 < Z.of_nat (length (ScriptIterator.descriptors self'))))
  /\ (forall self : ScriptIterator.t,
        0 <= ScriptIterator.index self
        < Z.of_nat (length (ScriptIterator.descriptors self)) ->
        let self' := (ScriptIterator._next_descriptor_script self).2 in
        ScriptIterator.descriptors self' = []
        \/ 0 <= ScriptIterator.index self'
           < Z.of_nat (length (ScriptIterator.descriptors self'))).
Proof.
  split; [|split].
  - intros master_key max_index max_account. right. simpl. lia.
  - intros self Hv.
    destruct (next_script_total self) as [[outcome self'] E].
    exists outcome, self'. split; [done|].
    by eapply next_script_loop_cursor_valid.
  - intros self Hi. apply poll_cursor_valid; [by right|].
    intros E. rewrite E in Hi. simpl in Hi. lia.
Qed.

Lemma scheduler_cursor_valid_witness :
  let self := @ScriptIterator.__init__ sample_capabilities tt 1 0 in
  (0 <= ScriptIterator.index self
   < Z.of_nat (length (ScriptIterator.descriptors self)))
  /\ exists outcome self',
       ScriptIterator.next_script self = Some (outcome, self')
       /\ (ScriptIterator.descriptors self' = []
           \/ 0 <= ScriptIterator.index self'
              < Z.of_nat (length (ScriptIterator.descriptors self'))).
Proof.
  simpl.
  assert (Hv : 0 <= 0 < 27) by lia.
  split; [exact Hv|].
  destruct (@scheduler_cursor_valid sample_capabilities) as (_ & Hcall & _).
  apply (Hcall (@ScriptIterator.__init__ sample_capabilities tt 1 0)).
  right. exact Hv.
Defined.

(** ** Decimal text *)

Section DecimalFacts.
Import PyStr.

Lemma is_digit_cases c :
  is_digit c = true ->
  is_space c = false /\ Ascii.eqb c "a" = false /\ Ascii.eqb c "i" = false
  /\ Ascii.eqb c "/" = false /\ Ascii.eqb c "'" = false
  /\ Ascii.eqb c "+" = false /\ Ascii.eqb c "-" = false
  /\ Ascii.eqb c "_" = false.
Proof.
  destruct c as [[|] [|] [|] [|] [|] [|] [|] [|]];
    try (intros Hd; by vm_compute in Hd); intros _; by vm_compute.
Qed.

Lemma all_digits_app s1 s2 :
  all_digits (s1 +:+ s2) = all_digits s1 && all_digits s2.
Proof.
  induction s1 as [|x s1 IH]; [done|].
  rewrite append_cons. simpl. by rewrite IH, andb_assoc.
Qed.

Lemma all_digits_occurs c s :
  is_digit c = false -> all_digits s = true -> occurs c s = false.
Proof.
  intros Hc. induction s as [|x s IH]; [done|]. simpl.
  intros [Hx Hs]%andb_true_iff. rewrite (IH Hs), orb_false_r.
  destruct (Ascii.eqb_spec x c) as [->|]; [congruence|done].
Qed.

Lemma all_digits_rev_append s acc :
  all_digits (rev_append s acc) = all_digits s && all_digits acc.
Proof.
  revert acc. induction s as [|x s IH]; intros acc; [done|]. simpl.
  rewrite IH. simpl. destruct (is_digit x), (all_digits s); done.
Qed.

Lemma rev_append_rev_append s a b :
  rev_append (rev_append s a) b = rev_append a (s +:+ b).
Proof.
  revert a b. induction s as [|x s IH]; intros a b; [done|]. simpl.
  by rewrite IH.
Qed.

Lemma rev_rev s : rev (rev s) = s.
Proof. unfold rev. by rewrite rev_append_rev_append, append_nil_r. Qed.

Lemma lstrip_digits s : all_digits s = true -> lstrip s = s.
Proof.
  destruct s as [|x s]; [done|]. simpl. intros [Hx _]%andb_true_iff.
  by destruct (is_digit_cases x Hx) as [-> _].
Qed.

Lemma strip_digits s : all_digits s = true -> strip s = s.
Proof.
  intros Hs. unfold strip. rewrite (lstrip_digits s Hs).
  rewrite lstrip_digits, rev_rev; [done|].
  unfold rev. by rewrite all_digits_rev_append, Hs.
Qed.

(** [int()] reads a run of digits as such: no sign, no white space. *)
Lemma int_digits s :
  all_digits s = true -> PyStr.int s = digits s 0 false.
Proof.
  intros Hs. unfold PyStr.int. rewrite (strip_digits s Hs).
  destruct s as [|x s]; [done|]. simpl in Hs.
  apply andb_true_iff in Hs as [Hx _].
  destruct x as [[|] [|] [|] [|] [|] [|] [|] [|]];
    try (by vm_compute in Hx); reflexivity.
Qed.

Lemma digits_all_digits s acc b :
  all_digits s = true -> (s <> "" \/ b = true) ->
  is_Some (digits s acc b).
Proof.
  revert acc b. induction s as [|x s IH]; intros acc b Hs Hne; simpl.
  - destruct Hne as [?| ->]; [done|by eexists].
  - simpl in Hs. apply andb_true_iff in Hs as [Hx Hs]. rewrite Hx.
    apply IH; [done|by right].
Qed.

Lemma digits_string_of_uint u acc b :
  (u <> Decimal.Nil \/ b = true) ->
  digits (NilEmpty.string_of_uint u) acc b = Some (uint_value u acc).
Proof.
  revert acc b. induction u; intros acc b Hne; simpl;
    try (rewrite IHu by (by right));
    try reflexivity.
  destruct Hne as [?| ->]; done.
Qed.

Lemma all_digits_string_of_uint u :
  all_digits (NilEmpty.string_of_uint u) = true.
Proof. induction u; simpl; done. Qed.

Lemma uint_value_of_uint_acc u p :
  uint_value u (Z.pos p) = Z.pos (Pos.of_uint_acc u p).
Proof.
  revert p. induction u; intros p; simpl; [done|..];
    rewrite <- IHu; f_equal; lia.
Qed.

Lemma uint_value_of_uint u : uint_value u 0 = Z.of_uint u.
Proof.
  unfold Z.of_uint.
  induction u; simpl; [done|exact IHu|..];
    match goal with
    | |- uint_value ?u ?k = _ =>
        change (uint_value u k = Z.pos (Pos.of_uint_acc u (Z.to_pos k)));
        apply uint_value_of_uint_acc
    end.
Qed.

Lemma str_nonneg n :
  0 <= n ->
  exists u, u <> Decimal.Nil /\ str n = NilEmpty.string_of_uint u
            /\ Z.of_uint u = n.
Proof.
  intros Hn. unfold str.
  pose proof (DecimalZ.of_to n) as Hof.
  destruct n as [|p|p]; [| |lia].
  - exists (Decimal.D0 Decimal.Nil). by repeat split.
  - simpl in *. exists (Pos.to_uint p). split; [|split; [|done]].
    + intros E. pose proof (DecimalPos.Unsigned.to_uint_nonnil p). done.
    + unfold NilZero.string_of_uint. by destruct (Pos.to_uint p) eqn:E.
Qed.

Lemma all_digits_str n : 0 <= n -> all_digits (str n) = true.
Proof.
  intros Hn. destruct (str_nonneg n Hn) as (u & _ & -> & _).
  apply all_digits_string_of_uint.
Qed.

Lemma str_nonempty n : 0 <= n -> str n <> "".
Proof.
  intros Hn. destruct (str_nonneg n Hn) as (u & Hu & -> & _).
  by destruct u.
Qed.

(** Printing then reading a number that is not negative gives it back. *)
Lemma int_str n : 0 <= n -> PyStr.int (str n) = Some n.
Proof.
  intros Hn. rewrite int_digits by by apply all_digits_str.
  destruct (str_nonneg n Hn) as (u & Hu & -> & <-).
  rewrite digits_string_of_uint by by left.
  by rewrite uint_value_of_uint.
Qed.

Lemma str_inj n m : 0 <= n -> 0 <= m -> str n = str m -> n = m.
Proof.
  intros Hn Hm E. apply (f_equal PyStr.int) in E.
  rewrite !int_str in E by done. by injection E.
Qed.

Lemma endswith_app_quote s c : endswith c (s +:+ String c "") = true.
Proof.
  induction s as [|x s IH]; [simpl; apply Ascii.eqb_refl|].
  rewrite append_cons. simpl.
  destruct (s +:+ String c "") eqn:E; [by destruct s|exact IH].
Qed.

Lemma drop_last_app_quote s c : drop_last (s +:+ String c "") = s.
Proof.
  induction s as [|x s IH]; [done|].
  rewrite append_cons. simpl.
  destruct (s +:+ String c "") eqn:E; [by destruct s|by rewrite IH].
Qed.

Lemma endswith_drop_last c s :
  endswith c s = true -> s = drop_last s +:+ String c "".
Proof.
  induction s as [|x s IH]; [done|]. simpl.
  destruct s as [|y s].
  - intros ->%Ascii.eqb_eq. done.
  - intros Hs. rewrite append_cons. f_equal. by apply IH.
Qed.

Lemma endswith_occurs c s : endswith c s = true -> occurs c s = true.
Proof.
  induction s as [|x s IH]; [done|]. simpl. destruct s as [|y s].
  - intros ->. done.
  - intros Hs. rewrite (IH Hs). apply orb_true_r.
Qed.

Lemma endswith_digits s c :
  is_digit c = false -> all_digits s = true -> endswith c s = false.
Proof.
  intros Hc Hs. destruct (endswith c s) eqn:E; [|done].
  apply endswith_occurs in E. by rewrite all_digits_occurs in E.
Qed.

End DecimalFacts.

(** ** Templates *)

Section TemplateFacts.
Import PyStr.

Lemma split_nonempty sep s : split sep s <> [].
Proof.
  destruct s as [|x s]; simpl; [done|].
  destruct (Ascii.eqb x sep); [done|]. by destruct (split sep s).
Qed.

Lemma split_app_nosep sep d s :
  occurs sep d = false ->
  split sep (d +:+ s)
  = match split sep s with
    | h :: t => (d +:+ h) :: t
    | [] => [d]
    end.
Proof.
  induction d as [|x d IH]; intros Hd.
  - rewrite append_nil_l. pose proof (split_nonempty sep s).
    by destruct (split sep s).
  - simpl in Hd. apply orb_false_iff in Hd as [Hx Hd].
    rewrite append_cons. simpl. rewrite Hx, (IH Hd).
    pose proof (split_nonempty sep s). by destruct (split sep s).
Qed.

(** Replacing a character by text without the separator acts segment by
    segment. *)
Lemma split_replace c sep new s :
  c <> sep -> occurs sep new = false ->
  split sep (replace c new s) = replace c new <$> split sep s.
Proof.
  intros Hc Hnew. induction s as [|x s IH]; [done|]. simpl.
  pose proof (split_nonempty sep s) as Hne.
  destruct (Ascii.eqb_spec x c) as [->|Hxc].
  - destruct (Ascii.eqb_spec c sep) as [|_]; [done|].
    rewrite split_app_nosep, IH by done.
    destruct (split sep s) as [|h t]; [done|]. csimpl.
    by rewrite Ascii.eqb_refl.
  - simpl. destruct (Ascii.eqb_spec x sep) as [->|Hxs]; csimpl.
    + by rewrite IH.
    + rewrite IH. destruct (split sep s) as [|h t]; [done|]. csimpl.
      by destruct (Ascii.eqb_spec x c).
Qed.

Lemma tail_fmap {A B} (f : A -> B) (l : list A) : tail (f <$> l) = f <$> tail l.
Proof. by destruct l. Qed.

(** The segments read by [to_list] on the path returned by
    [with_account]: every segment of the template with its placeholders
    replaced. *)
Lemma parts_with_account p account index :
  0 <= account -> 0 <= index ->
  Path.parts (Path.with_account (Path.Path p) account) (Some index) None
  = (fun segment =>
       replace "i" (str index)
         (replace "a" "None" (replace "a" (str account) segment)))
    <$> tail (split "/" p).
Proof.
  intros Ha Hi. unfold Path.parts, Path.with_account. simpl.
  rewrite !split_replace, !tail_fmap;
    [|done|by apply all_digits_occurs, all_digits_str
     |done|done|done|by apply all_digits_occurs, all_digits_str].
  rewrite <- !list_fmap_compose. done.
Qed.

Lemma replace_str c new n :
  is_digit c = false -> 0 <= n -> replace c new (str n) = str n.
Proof.
  intros Hc Hn. apply replace_absent, all_digits_occurs; [done|].
  by apply all_digits_str.
Qed.

Lemma literal_str n : 0 <= n -> Path.literal (str n) = Some n.
Proof.
  intros Hn. unfold Path.literal.
  rewrite endswith_digits; [by apply int_str|done|by apply all_digits_str].
Qed.

Lemma literal_str_quote n : 0 <= n -> Path.literal (str n +:+ "'") = Some n.
Proof.
  intros Hn. unfold Path.literal.
  rewrite endswith_app_quote, drop_last_app_quote. by apply int_str.
Qed.

Lemma literal_digits s :
  all_digits s = true -> s <> "" -> is_Some (Path.literal s).
Proof.
  intros Hs Hne. unfold Path.literal.
  rewrite endswith_digits, int_digits by done.
  apply digits_all_digits; [done|by left].
Qed.

Lemma literal_digits_quote s :
  all_digits s = true -> s <> "" -> is_Some (Path.literal (s +:+ "'")).
Proof.
  intros Hs Hne. unfold Path.literal.
  rewrite endswith_app_quote, drop_last_app_quote, int_digits by done.
  apply digits_all_digits; [done|by left].
Qed.

(** A well-formed segment holds an integer once its placeholders are
    replaced by numbers. *)
Lemma segment_ok_literal segment account index :
  Path.segment_ok segment = true -> 0 <= account -> 0 <= index ->
  is_Some (Path.literal
             (replace "i" (str index)
                (replace "a" "None" (replace "a" (str account) segment)))).
Proof.
  intros Hok Ha Hi. unfold Path.segment_ok in Hok.
  assert (Hbody : forall body,
    (String.eqb body "a" || String.eqb body "i"
     || (all_digits body && negb (String.eqb body "")) = true) ->
    (body = "a" \/ body = "i" \/ (all_digits body = true /\ body <> ""))).
  { intros body Hb. apply orb_true_iff in Hb as [Hb|Hb].
    - apply orb_true_iff in Hb as [Hb|Hb]; apply String.eqb_eq in Hb; auto.
    - apply andb_true_iff in Hb as [Hd Hne]. right. right. split; [done|].
      intros ->. done. }
  destruct (endswith "'" segment) eqn:Eq.
  - rewrite (endswith_drop_last _ _ Eq).
    destruct (Hbody _ Hok) as [->|[->|[Hd Hne]]].
    + rewrite !replace_app. simpl. rewrite !replace_app. simpl.
      rewrite !replace_str, append_nil_r by done.
      rewrite literal_str_quote by done. by eexists.
    + rewrite !replace_app. simpl. rewrite append_nil_r.
      rewrite literal_str_quote by done. by eexists.
    + rewrite !replace_app.
      rewrite !(replace_absent _ _ (drop_last segment))
        by by apply all_digits_occurs.
      simpl. by apply literal_digits_quote.
  - destruct (Hbody _ Hok) as [->|[->|[Hd Hne]]].
    + simpl. rewrite !append_nil_r, !replace_str by done.
      rewrite literal_str by done. by eexists.
    + simpl. rewrite append_nil_r, literal_str by done. by eexists.
    + rewrite !(replace_absent _ _ segment) by by apply all_digits_occurs.
      by apply literal_digits.
Qed.

(** A well-formed template resolves at every account and index that are
    not negative. *)
Lemma template_ok_resolves p account index :
  Path.template_ok p = true -> 0 <= account -> 0 <= index ->
  exists indexes,
    Path.to_list (Path.with_account (Path.Path p) account) (Some index) None
    = inr indexes.
Proof.
  intros Hok Ha Hi. unfold Path.to_list.
  apply to_list_loop_succeeds. rewrite parts_with_account by done.
  apply Forall_fmap, Forall_forall. intros segment Hin. simpl.
  unfold Path.template_ok in Hok. rewrite forallb_forall in Hok.
  apply list_elem_of_In in Hin.
  destruct (segment_ok_literal segment account index (Hok _ Hin) Ha Hi)
    as [n Hn].
  rewrite Hn. done.
Qed.

(** Every template of the table is well formed. *)
Lemma descriptors_template_ok :
  forallb (fun entry => Path.template_ok entry.1) descriptors = true.
Proof. by vm_compute. Qed.

End TemplateFacts.

(** ** The searches built from the table *)

Section RegistryFacts.
Import PyStr.

Lemma split_with_account p account :
  0 <= account ->
  split "/" (Path.path (Path.with_account (Path.Path p) account))
  = replace "a" (str account) <$> split "/" p.
Proof.
  intros Ha. unfold Path.with_account. simpl.
  apply split_replace; [done|]. by apply all_digits_occurs, all_digits_str.
Qed.

Lemma quoted_str_inj n m :
  0 <= n -> 0 <= m -> str n +:+ "'" = str m +:+ "'" -> n = m.
Proof.
  intros Hn Hm E. apply (f_equal drop_last) in E.
  rewrite !drop_last_app_quote in E. by apply str_inj.
Qed.

Lemma quoted_str_literal n s :
  0 <= n -> str n +:+ "'" = s -> PyStr.int (drop_last s) = Some n.
Proof.
  intros Hn <-. rewrite drop_last_app_quote. by apply int_str.
Qed.

Arguments str : simpl never.
Arguments Path.with_account : simpl never.

Ltac enum_lookup Hj :=
  lazymatch type of Hj with
  | [] !! _ = Some _ => by rewrite lookup_nil in Hj
  | (_ :: _) !! ?j = Some _ =>
      destruct j; [injection Hj as <-|simpl in Hj; enum_lookup Hj]
  end.

(** Below the account numbers reserved in the table, the path and the
    script type of a result tell its search and its account. *)
Lemma searches_paths_distinct (max_index max_account : Z) j j' d d' a a' :
  0 <= max_account < 2147483644 ->
  ScriptIterator.searches max_index max_account !! j = Some d ->
  ScriptIterator.searches max_index max_account !! j' = Some d' ->
  0 <= a <= DescriptorScriptIterator.max_account d ->
  0 <= a' <= DescriptorScriptIterator.max_account d' ->
  Path.with_account (DescriptorScriptIterator.path d) a
  = Path.with_account (DescriptorScriptIterator.path d') a' ->
  DescriptorScriptIterator.script_type d
  = DescriptorScriptIterator.script_type d' ->
  j = j' /\ a = a'.
Proof.
  intros Hma Hj Hj' Ha Ha' Hp Ht.
  unfold ScriptIterator.searches in Hj, Hj'. simpl in Hj, Hj'.
  enum_lookup Hj; simpl in Ht, Ha, Hp;
    (enum_lookup Hj'; simpl in Ht; try discriminate Ht; simpl in Ha', Hp);
    apply (f_equal (fun P => split "/" (Path.path P))) in Hp;
    rewrite !split_with_account in Hp by lia;
    simpl in Hp;
    try discriminate Hp;
    first
      [ split; [done|lia]
      | injection Hp as Hp;
        first
          [ apply quoted_str_inj in Hp; [by split|lia|lia]
          | apply quoted_str_literal in Hp; [|lia]; vm_compute in Hp;
            injection Hp as Hp; lia
          | symmetry in Hp; apply quoted_str_literal in Hp; [|lia];
            vm_compute in Hp; injection Hp as Hp; lia ] ].
Qed.

End RegistryFacts.

(** ** The searches of the scheduler enumerate their grids *)

Section SearchesFacts.
Context `{Capabilities}.
Variable master_key : BIP32.

Lemma StronglySorted_NoDup {A} (R : A -> A -> Prop) (l : list A) :
  (forall x, ~ R x x) -> StronglySorted R l -> NoDup l.
Proof.
  intros Hirr Hs. induction Hs as [|x l Hs IH Hall]; constructor; [|done].
  intros Hin. eapply Forall_forall in Hall; [|exact Hin]. by apply Hirr in Hall.
Qed.

(** A fresh search with bounds that are not negative and a template that
    resolves enumerates its grid. *)
Lemma fresh_search_enumerates (self : DescriptorScriptIterator.t) :
  DescriptorScriptIterator.index self = 0 ->
  DescriptorScriptIterator.account self = 0 ->
  0 <= DescriptorScriptIterator.max_index self ->
  0 <= DescriptorScriptIterator.max_account self ->
  DescriptorScriptIterator.total_scripts self
  = (DescriptorScriptIterator.max_index self + 1)
    * (DescriptorScriptIterator.max_account self + 1) ->
  DescriptorScriptIterator.resolves self ->
  exists E, DescriptorScriptIterator.enumerates master_key self E.
Proof.
  intros Hi Ha Hmi Hma Htot Hres.
  assert (H0 : Diagonal.in_grid (DescriptorScriptIterator.max_index self)
                 (DescriptorScriptIterator.max_account self) (0, 0))
    by (unfold Diagonal.in_grid; simpl; lia).
  destruct (walk_exists _ _ Hmi Hma _ H0) as [cs Hw].
  destruct (walk_origin _ _ Hmi Hma _ Hw) as (Hin & Hs & Hlen).
  destruct (calls_follow_walk master_key self cs) as (rs & Hy & Hf & _ & _);
    [unfold DescriptorScriptIterator.cursor; by rewrite Hi, Ha|done|done
    |lia|lia|done|].
  pose proof (Forall2_length _ _ _ Hf) as Hlen2.
  exists (zip cs rs). unfold DescriptorScriptIterator.enumerates.
  rewrite fst_zip, snd_zip by lia.
  split; [done|]. split; [|split; [|split; [done|]]].
  - clear -Hf. induction Hf; constructor; done.
  - eapply StronglySorted_NoDup; [|exact Hs]. apply before_irrefl.
  - rewrite length_zip, <- Hlen2, Nat.min_id, Htot. exact Hlen.
Qed.

Lemma elem_of_searches max_index max_account d :
  d ∈ ScriptIterator.searches max_index max_account ->
  exists p ty,
    Path.template_ok p = true
    /\ d = DescriptorScriptIterator.__init__ (Path.Path p) ty
             max_index max_account.
Proof.
  intros Hd. apply list_elem_of_In in Hd.
  unfold ScriptIterator.searches in Hd.
  apply in_flat_map in Hd as ([p types] & Hentry & Hd).
  apply in_map_iff in Hd as (ty & <- & _).
  exists p, ty. split; [|done].
  pose proof descriptors_template_ok as Hok.
  rewrite forallb_forall in Hok. exact (Hok _ Hentry).
Qed.

Lemma Forall_exists_Forall2 {A B} (P : A -> B -> Prop) (l : list A) :
  Forall (fun x => exists y, P x y) l -> exists k, Forall2 P l k.
Proof.
  induction 1 as [|x l [y Hy] _ [k Hk]]; [by exists []|].
  exists (y :: k). by constructor.
Qed.

(** With bounds that are not negative, every search built from the table
    enumerates its grid. *)
Lemma searches_enumerate max_index max_account :
  0 <= max_index -> 0 <= max_account ->
  exists ES,
    Forall2 (DescriptorScriptIterator.enumerates master_key)
      (ScriptIterator.searches max_index max_account) ES.
Proof.
  intros Hmi Hma. apply Forall_exists_Forall2, Forall_forall.
  intros d Hd. apply elem_of_searches in Hd as (p & ty & Hok & ->).
  apply fresh_search_enumerates; simpl; try done.
  - by destruct (Path.has_variable_index _).
  - by destruct (Path.has_variable_account _).
  - intros index account Hi Ha. simpl in Hi, Ha.
    apply template_ok_resolves; [done|lia|lia].
Qed.

End SearchesFacts.

(** ** Tagged merges *)

Section TaggedFacts.
Import RoundRobin.
Context {A : Type}.
Implicit Types (L : list (list A)).

Lemma fmap_snd_tagged L : fmap (M := list) snd <$> tagged L = L.
Proof.
  unfold tagged. apply list_eq. intros j.
  rewrite list_lookup_fmap, list_lookup_imap.
  destruct (L !! j) as [l|]; simpl; [|done]. f_equal.
  rewrite <- list_fmap_compose. apply list_fmap_id.
Qed.

Lemma elem_of_shifted_tagged L k j (x : A) :
  (j, x) ∈ concat (imap (fun i l => pair (k + i)%nat <$> l) L)
  <-> exists i l, j = (k + i)%nat /\ L !! i = Some l /\ x ∈ l.
Proof.
  rewrite list_elem_of_In, in_concat. split.
  - intros (t & Ht & Hx). apply list_elem_of_In, elem_of_lookup_imap in Ht
      as (i & l & -> & Hl).
    change (In (j, x) (pair (k + i)%nat <$> l)) in Hx.
    apply list_elem_of_In, list_elem_of_fmap in Hx as (y & [= -> ->] & Hy).
    by exists i, l.
  - intros (i & l & -> & Hl & Hx). exists (pair (k + i)%nat <$> l). split.
    + apply list_elem_of_In.
      exact (elem_of_lookup_imap_2
               (fun i l => pair (k + i)%nat <$> l) L l i Hl).
    + apply list_elem_of_In, list_elem_of_fmap. by exists x.
Qed.

Lemma elem_of_concat_tagged L j (x : A) :
  (j, x) ∈ concat (tagged L) <-> exists l, L !! j = Some l /\ x ∈ l.
Proof.
  unfold tagged.
  rewrite (elem_of_shifted_tagged L 0 j x). split.
  - intros (i & l & -> & Hl & Hx). by exists l.
  - intros (l & Hl & Hx). by exists j, l.
Qed.

Lemma NoDup_shifted_tagged L k :
  Forall NoDup L ->
  NoDup (concat (imap (fun i l => pair (k + i)%nat <$> l) L)).
Proof.
  intros HL. revert k. induction HL as [|l L Hl HL IH]; intros k.
  - constructor.
  - rewrite imap_cons. simpl. apply NoDup_app. split; [|split].
    + apply NoDup_fmap_2; [|done]. by intros ? ? [= ->].
    + intros [j x] Hin Hlater.
      apply list_elem_of_fmap in Hin as (y & [= -> ->] & _).
      rewrite (imap_ext _ (fun i l => pair (S k + i)%nat <$> l)) in Hlater
        by (intros i' l' _; simpl;
            by replace (k + S i')%nat with (S (k + i')) by lia).
      apply elem_of_shifted_tagged in Hlater as (i & _ & Hk & _). lia.
    + rewrite (imap_ext _ (fun i l => pair (S k + i)%nat <$> l))
        by (intros i' l' _; simpl;
            by replace (k + S i')%nat with (S (k + i')) by lia).
      apply IH.
Qed.

(** The merged tagged sequences hold every element of every sequence,
    under the number of its sequence. *)
Lemma elem_of_merge_tagged L j (x : A) :
  (j, x) ∈ merge (tagged L) <-> exists l, L !! j = Some l /\ x ∈ l.
Proof. by rewrite merge_Permutation, elem_of_concat_tagged. Qed.

Lemma NoDup_merge_tagged L : Forall NoDup L -> NoDup (merge (tagged L)).
Proof.
  intros HL. rewrite merge_Permutation. by apply (NoDup_shifted_tagged L 0).
Qed.

Lemma merge_tagged L : snd <$> merge (tagged L) = merge L.
Proof. by rewrite <- merge_fmap, fmap_snd_tagged. Qed.

End TaggedFacts.

Lemma foldl_add_shift (l : list Z) (a : Z) :
  foldl Z.add a l = a + foldl Z.add 0 l.
Proof.
  revert a. induction l as [|x l IH]; intros a; simpl; [lia|].
  rewrite (IH (a + x)), (IH (0 + x)). lia.
Qed.

Lemma sum_cons (x : Z) (l : list Z) : PyList.sum (x :: l) = x + PyList.sum l.
Proof. unfold PyList.sum. simpl. apply foldl_add_shift. Qed.

(** ** The full run of the scheduler *)

Section RunFacts.
Context `{Capabilities}.
Variable master_key : BIP32.

Local Abbreviation enumerates :=
  (DescriptorScriptIterator.enumerates master_key).

Lemma enumerates_yields ds ES :
  Forall2 enumerates ds ES ->
  Forall2 (DescriptorScriptIterator.yields master_key) ds
    (fmap (M := list) snd <$> ES).
Proof.
  intros HES. apply Forall2_fmap_r.
  eapply Forall2_impl; [exact HES|]. by intros d E (Hy & _).
Qed.

Lemma enumerates_total ds ES :
  Forall2 enumerates ds ES ->
  Forall (fun d => 0 <= DescriptorScriptIterator.total_scripts d) ds ->
  0 <= PyList.sum (DescriptorScriptIterator.total_scripts <$> ds)
  /\ sum_list_with length (fmap (M := list) snd <$> ES)
     = Z.to_nat (PyList.sum (DescriptorScriptIterator.total_scripts <$> ds)).
Proof.
  induction 1 as [|d E ds ES (_ & _ & _ & _ & Hlen) _ IH]; intros Hpos.
  - done.
  - inversion Hpos as [|? ? Hd Hds]; subst.
    destruct (IH Hds) as [Hsum Hlens]. csimpl.
    rewrite sum_cons, length_fmap, Hlens, Hlen. lia.
Qed.

Lemma searches_total_nonneg max_index max_account :
  0 <= max_index -> 0 <= max_account ->
  Forall (fun d => 0 <= DescriptorScriptIterator.total_scripts d)
    (ScriptIterator.searches max_index max_account).
Proof.
  intros Hmi Hma. apply Forall_forall. intros d Hd.
  apply elem_of_searches in Hd as (p & ty & _ & ->). simpl.
  destruct (Path.has_variable_index _), (Path.has_variable_account _); nia.
Qed.

Lemma next_script_empty (self : ScriptIterator.t) :
  ScriptIterator.descriptors self = [] ->
  ScriptIterator.next_script self = Some (Ok None, self).
Proof.
  intros E. unfold ScriptIterator.next_script. rewrite E. simpl.
  by rewrite E.
Qed.

End RunFacts.

(** C4, as the code has it.  For bounds that are not negative, and for a
    key derivation and script construction that return, repeated calls
    of [ScriptIterator.next_script] return a non-null result exactly
    [total_scripts] times, the sum of the [total_scripts] of the searches
    built from the table, and null on every call after these; and a call
    on an iterator whose collection is empty returns null and leaves it
    empty. *)
Theorem scheduler_returns_sum_of_totals `{Capabilities}
    (master_key : BIP32) (max_index max_account : Z) :
  0 <= max_index -> 0 <= max_account ->
  let self := ScriptIterator.__init__ master_key max_index max_account in
  ScriptIterator.total_scripts self
  = PyList.sum (DescriptorScriptIterator.total_scripts
                  <$> ScriptIterator.descriptors self)
  /\ (exists rs : list script_result,
        length rs = Z.to_nat (ScriptIterator.total_scripts self)
        /\ forall n,
             ScriptIterator.outcomes n self
             = take n ((Ok ∘ Some <$> rs) ++ replicate n (Ok None)))
  /\ (forall self' : ScriptIterator.t,
        ScriptIterator.descriptors self' = [] ->
        ScriptIterator.next_script self' = Some (Ok None, self')).
Proof.
  intros Hmi Hma self. split; [done|]. split; [|apply next_script_empty].
  destruct (searches_enumerate master_key max_index max_account Hmi Hma)
    as [ES HES].
  exists (RoundRobin.merge (fmap (M := list) snd <$> ES)). split.
  - rewrite length_merge.
    by apply (enumerates_total master_key), searches_total_nonneg.
  - intros n.
    apply (outcomes_merge n master_key self); [done|done|].
    by apply enumerates_yields.
Qed.

Lemma scheduler_returns_sum_of_totals_witness :
  let self := @ScriptIterator.__init__ sample_capabilities tt 1 0 in
  exists rs : list script_result,
    length rs = 54%nat
    /\ forall n,
         ScriptIterator.outcomes n self
         = take n ((Ok ∘ Some <$> rs) ++ replicate n (Ok None)).
Proof.
  destruct (@scheduler_returns_sum_of_totals sample_capabilities tt 1 0)
    as (_ & (rs & Hlen & Hrun) & _); [lia|lia|].
  exists rs. split; [exact Hlen|exact Hrun].
Defined.

(** With negative bounds the sum of the [total_scripts] is not the number
    of results: at [(-2, -2)] it is [-15], and the first call returns
    null. *)
Lemma scheduler_count_fails_on_negative_bounds :
  let self := @ScriptIterator.__init__ sample_capabilities tt (-2) (-2) in
  ScriptIterator.total_scripts self = -15
  /\ ScriptIterator.outcomes 2 self = [Ok None; Ok None].
Proof. by vm_compute. Qed.

Section ProvenanceFacts.
Import RoundRobin.

Lemma tagged_fmap {A B} (f : A -> B) (L : list (list A)) :
  fmap (M := list) (prod_map id f) <$> tagged L
  = tagged (fmap (M := list) f <$> L).
Proof.
  unfold tagged. apply list_eq. intros j.
  rewrite list_lookup_fmap, !list_lookup_imap, list_lookup_fmap.
  destruct (L !! j) as [l|]; simpl; [|done]. f_equal.
  by rewrite <- !list_fmap_compose.
Qed.

End ProvenanceFacts.

(** C5, as the code has it.  For [0 <= max_index] and
    [0 <= max_account < 2147483644] (below the account numbers reserved in
    the table), and for a key derivation and script construction that
    return, the non-null results of the full run are, each once, the
    results of the cells of the searches, and two of them carry the same
    path and script type exactly when they come from the same search at
    the same account: the pair does not tell the index.  [stream] lists
    the results with their search number and cell. *)
Theorem scheduler_pair_tells_search_and_account `{Capabilities}
    (master_key : BIP32) (max_index max_account : Z) :
  0 <= max_index -> 0 <= max_account < 2147483644 ->
  let self := ScriptIterator.__init__ master_key max_index max_account in
  exists stream : list (nat * ((Z * Z) * script_result)),
    (forall n,
       ScriptIterator.outcomes n self
       = take n ((Ok ∘ Some ∘ snd ∘ snd <$> stream)
                 ++ replicate n (Ok None)))
    /\ NoDup ((fun x => (x.1, x.2.1)) <$> stream)
    /\ (forall j c r,
          (j, (c, r)) ∈ stream <->
          exists d,
            ScriptIterator.descriptors self !! j = Some d
            /\ (0 <= c.1 <= DescriptorScriptIterator.max_index d)
            /\ (0 <= c.2 <= DescriptorScriptIterator.max_account d)
            /\ DescriptorScriptIterator.script_at d master_key c = Some r)
    /\ (forall j c r j' c' r',
          (j, (c, r)) ∈ stream -> (j', (c', r')) ∈ stream ->
          (r.1.2 = r'.1.2 /\ r.2 = r'.2) <-> (j = j' /\ c.2 = c'.2)).
Proof.
  intros Hmi Hma self.
  destruct (searches_enumerate master_key max_index max_account Hmi)
    as [ES HES]; [lia|].
  set (stream := RoundRobin.merge (RoundRobin.tagged ES)).
  assert (Hmem : forall j c r,
    (j, (c, r)) ∈ stream <->
    exists d,
      ScriptIterator.descriptors self !! j = Some d
      /\ (0 <= c.1 <= DescriptorScriptIterator.max_index d)
      /\ (0 <= c.2 <= DescriptorScriptIterator.max_account d)
      /\ DescriptorScriptIterator.script_at d master_key c = Some r).
  { intros j c r. unfold stream. rewrite elem_of_merge_tagged. split.
    - intros (E & HE & Hin).
      destruct (Forall2_lookup_r _ _ _ _ _ HES HE)
        as (d & Hd & _ & Hat & _ & Hgrid & _).
      exists d. split; [exact Hd|].
      assert (Hc : Diagonal.in_grid (DescriptorScriptIterator.max_index d)
                     (DescriptorScriptIterator.max_account d) c).
      { apply Hgrid, list_elem_of_fmap. by exists (c, r). }
      destruct Hc as [? ?]. split; [done|]. split; [done|].
      eapply Forall_forall in Hat; [|exact Hin]. exact Hat.
    - intros (d & Hd & Hc1 & Hc2 & Hat).
      destruct (Forall2_lookup_l _ _ _ _ _ HES Hd)
        as (E & HE & _ & HatE & _ & Hgrid & _).
      exists E. split; [exact HE|].
      assert (Hc : c ∈ E.*1) by (apply Hgrid; by split).
      apply list_elem_of_fmap in Hc as ([c0 r0] & -> & Hin). simpl in *.
      eapply Forall_forall in HatE; [|exact Hin]. simpl in HatE.
      assert (r0 = r) as -> by congruence. done. }
  exists stream. split; [|split; [|split; [exact Hmem|]]].
  - intros n.
    rewrite (outcomes_merge n master_key self
               (fmap (M := list) snd <$> ES));
      [|done|done|by apply enumerates_yields].
    unfold ScriptIterator.expected, stream.
    by rewrite merge_fmap, <- (merge_tagged ES), <- !list_fmap_compose.
  - unfold stream.
    replace ((fun x : nat * (Z * Z * script_result) => (x.1, x.2.1))
               <$> RoundRobin.merge (RoundRobin.tagged ES))
      with (RoundRobin.merge (RoundRobin.tagged (fmap (M := list) fst <$> ES))).
    + apply NoDup_merge_tagged, Forall_fmap.
      clear -HES. induction HES as [|d E ds ES' (_ & _ & Hnd & _) _ IH];
        constructor; done.
    + rewrite <- tagged_fmap, merge_fmap. apply list_fmap_ext.
      by intros _ [j [c r]] _.
  - intros j c r j' c' r' Hin Hin'.
    apply Hmem in Hin as (d & Hd & Hc1 & Hc2 & Hat).
    apply Hmem in Hin' as (d' & Hd' & Hc1' & Hc2' & Hat').
    unfold DescriptorScriptIterator.script_at in Hat, Hat'.
    destruct (Path.to_list _ _ _) in Hat; [done|]. injection Hat as <-.
    destruct (Path.to_list _ _ _) in Hat'; [done|]. injection Hat' as <-.
    simpl. split.
    + intros [Hp Ht].
      by eapply (searches_paths_distinct max_index max_account j j' d d').
    + intros [-> Hc]. assert (d' = d) as -> by congruence.
      by rewrite Hc.
Qed.

Lemma scheduler_pair_tells_search_and_account_witness :
  let self := @ScriptIterator.__init__ sample_capabilities tt 1 0 in
  exists stream : list (nat * ((Z * Z) * script_result)),
    (forall n,
       ScriptIterator.outcomes n self
       = take n ((Ok ∘ Some ∘ snd ∘ snd <$> stream)
                 ++ replicate n (Ok None)))
    /\ NoDup ((fun x => (x.1, x.2.1)) <$> stream).
Proof.
  destruct (@scheduler_pair_tells_search_and_account sample_capabilities
              tt 1 0) as (stream & Hrun & Hnd & _); [lia|lia|].
  exists stream. split; [exact Hrun|exact Hnd].
Defined.

(** The pair of path and script type is returned twice as soon as a
    search has two indexes: with [max_index = 1] and [max_account = 0] the
    first and the twenty-eighth result carry the same pair. *)
Lemma scheduler_returns_duplicate_pairs :
  let self := @ScriptIterator.__init__ sample_capabilities tt 1 0 in
  exists script script' path script_type,
    ScriptIterator.outcomes 28 self !! 0%nat
    = Some (Ok (Some (script, path, script_type)))
    /\ ScriptIterator.outcomes 28 self !! 27%nat
       = Some (Ok (Some (script', path, script_type)))
    /\ script <> script'.
Proof.
  cbv zeta. eexists _, _, _, _.
  split; [vm_compute; reflexivity|].
  split; [vm_compute; reflexivity|]. discriminate.
Qed.

(** At the reserved account numbers two searches of the table return the
    same pair: the BIP84 search at account 2147483644 and the search of
    that fixed account. *)
Lemma reserved_account_collision :
  let bip84 :=
    DescriptorScriptIterator.__init__
      (Path.Path "m/84'/0'/a'/0/i") SEGWIT 0 2147483644 in
  let fixed :=
    DescriptorScriptIterator.__init__
      (Path.Path "m/84'/0'/2147483644'/0/i") SEGWIT 0 2147483644 in
  exists script path script_type,
    @DescriptorScriptIterator.script_at sample_capabilities bip84 tt
      (0, 2147483644) = Some (script, path, script_type)
    /\ @DescriptorScriptIterator.script_at sample_capabilities fixed tt
         (0, 0) = Some (script, path, script_type).
Proof.
  cbv zeta. eexists _, _, _. split; vm_compute; reflexivity.
Qed.

(** C2, as the code has it.  Take a scheduler at the start of a round
    whose searches, driven alone, yield the result lists [F].  For a
    search [A] placed before a search [B] in the collection, the result of
    rank [k+1] of [A] comes after the result of rank [k] of [B] in the
    merged stream, and no more than [n - 1] positions after it, [n] being
    the number of searches that yield a result of rank [k] (at most the
    size of the collection).  In the other order of [A] and [B] the bound
    is [n + n' - 1], with [n'] the number of searches that yield a result
    of rank [k+1]. *)
Theorem scheduler_round_robin_fairness `{Capabilities}
    (self : ScriptIterator.t) (F : list (list script_result))
    (a b k : nat) (lA lB : list script_result) (rA rB : script_result) :
  ScriptIterator.index self = 0 ->
  Forall2 (DescriptorScriptIterator.yields (ScriptIterator.master_key self))
    (ScriptIterator.descriptors self) F ->
  F !! a = Some lA -> F !! b = Some lB ->
  lA !! S k = Some rA -> lB !! k = Some rB ->
  exists (stream : list script_result) (pA pB n n' : nat),
    (forall m,
       ScriptIterator.outcomes m self
       = take m ((Ok ∘ Some <$> stream) ++ replicate m (Ok None)))
    /\ pA = RoundRobin.slot F a (S k) /\ pB = RoundRobin.slot F b k
    /\ stream !! pA = Some rA /\ stream !! pB = Some rB
    /\ n = RoundRobin.active F k /\ n' = RoundRobin.active F (S k)
    /\ (n' <= n <= length (ScriptIterator.descriptors self))%nat
    /\ (pB < pA)%nat
    /\ (pA + 1 <= pB + n + n')%nat
    /\ ((a < b)%nat -> (pA + 1 <= pB + n)%nat).
Proof.
  intros Hi HF Ha Hb HrA HrB.
  exists (RoundRobin.merge F), (RoundRobin.slot F a (S k)),
    (RoundRobin.slot F b k), (RoundRobin.active F k),
    (RoundRobin.active F (S k)).
  split.
  { intros m.
    by apply (outcomes_merge m (ScriptIterator.master_key self) self F). }
  split; [done|]. split; [done|].
  split; [by eapply merge_lookup_slot|].
  split; [by eapply merge_lookup_slot|].
  split; [done|]. split; [done|].
  split.
  { split; [apply active_mono|].
    rewrite (Forall2_length _ _ _ HF). apply active_le_length. }
  destruct (slot_fair_any F a b k lA lB Ha Hb) as [Hlt Hany];
    [by eexists..|].
  split; [done|]. split; [done|].
  intros Hab.
  by destruct (slot_fair_ordered F a b k lA lB Hab Ha Hb) as [_ ?];
    [by eexists..|].
Qed.

Lemma scheduler_round_robin_fairness_witness :
  let self := @ScriptIterator.__init__ sample_capabilities tt 1 0 in
  exists (stream : list script_result) (pA pB : nat),
    (forall m,
       ScriptIterator.outcomes m self
       = take m ((Ok ∘ Some <$> stream) ++ replicate m (Ok None)))
    /\ (pB < pA)%nat /\ (pA + 1 <= pB + 27)%nat.
Proof.
  intros self.
  destruct (@searches_enumerate sample_capabilities tt 1 0) as [ES HES];
    [lia|lia|].
  pose proof (@enumerates_yields sample_capabilities tt _ _ HES) as HF.
  assert (Hd0 : ScriptIterator.searches 1 0 !! 0%nat
                = Some (DescriptorScriptIterator.__init__
                          (Path.Path "m/44'/0'/a'/0/i") LEGACY 1 0))
    by reflexivity.
  assert (Hd1 : ScriptIterator.searches 1 0 !! 1%nat
                = Some (DescriptorScriptIterator.__init__
                          (Path.Path "m/44'/0'/a'/1/i") LEGACY 1 0))
    by reflexivity.
  destruct (Forall2_lookup_l _ _ _ _ _ HES Hd0)
    as (E0 & HE0 & _ & _ & _ & _ & Hlen0).
  destruct (Forall2_lookup_l _ _ _ _ _ HES Hd1)
    as (E1 & HE1 & _ & _ & _ & _ & Hlen1).
  assert (HlA : (fmap (M := list) snd <$> ES) !! 0%nat = Some (E0.*2))
    by by rewrite list_lookup_fmap, HE0.
  assert (HlB : (fmap (M := list) snd <$> ES) !! 1%nat = Some (E1.*2))
    by by rewrite list_lookup_fmap, HE1.
  destruct (lookup_lt_is_Some_2 (E0.*2) 1) as [rA HrA].
  { rewrite length_fmap, Hlen0. vm_compute. lia. }
  destruct (lookup_lt_is_Some_2 (E1.*2) 0) as [rB HrB].
  { rewrite length_fmap, Hlen1. vm_compute. lia. }
  destruct (@scheduler_round_robin_fairness sample_capabilities self
              (fmap (M := list) snd <$> ES) 0 1 0 _ _ rA rB
              eq_refl HF HlA HlB HrA HrB)
    as (stream & pA & pB & n & n' & Hrun & _ & _ & _ & _ & _ & _
        & [_ Hn] & Hlt & _ & Hord).
  exists stream, pA, pB. split; [exact Hrun|]. split; [exact Hlt|].
  specialize (Hord ltac:(lia)).
  change (length (ScriptIterator.descriptors self)) with 27%nat in Hn. lia.
Defined.

(** The bound [n - 1] fails for a search [A] placed behind [B].  With
    [max_index = 2] and [max_account = 0] the 27 searches stay in the
    collection for three rounds; the second result of the last search
    sits 53 positions after the first result of the first search, and
    nowhere else in the stream. *)
Lemma scheduler_fairness_bound_fails :
  let self := @ScriptIterator.__init__ sample_capabilities tt 2 0 in
  let first :=
    DescriptorScriptIterator.__init__
      (Path.Path "m/44'/0'/a'/0/i") LEGACY 2 0 in
  let last :=
    DescriptorScriptIterator.__init__
      (Path.Path "m/84'/0'/2147483644'/1/i") SEGWIT 2 0 in
  exists rA0 rA rB : script_result,
    ScriptIterator.descriptors self !! 0%nat = Some first
    /\ ScriptIterator.descriptors self !! 26%nat = Some last
    /\ length (ScriptIterator.descriptors self) = 27%nat
    /\ @DescriptorScriptIterator.outcomes sample_capabilities 1 first tt
       = [Ok (Some rB)]
    /\ @DescriptorScriptIterator.outcomes sample_capabilities 2 last tt
       = [Ok (Some rA0); Ok (Some rA)]
    /\ ScriptIterator.outcomes 81 self !! 0%nat = Some (Ok (Some rB))
    /\ ScriptIterator.outcomes 81 self !! 53%nat = Some (Ok (Some rA))
    /\ NoDup (ScriptIterator.outcomes 81 self)
    /\ (53 > 0 + (27 - 1))%nat.
Proof.
  cbv zeta. eexists _, _, _.
  split; [reflexivity|]. split; [reflexivity|]. split; [reflexivity|].
  split; [vm_compute; reflexivity|]. split; [vm_compute; reflexivity|].
  split; [vm_compute; reflexivity|]. split; [vm_compute; reflexivity|].
  split; [|lia].
  refine (bool_decide_unpack _ _). by vm_compute.
Qed.

(** * Further properties of the module *)

(** ** Binding placeholders *)

Section BindingFacts.
Import PyStr.

Lemma occurs_string_of_uint c u :
  is_digit c = false -> occurs c (NilEmpty.string_of_uint u) = false.
Proof.
  intros Hc. apply all_digits_occurs; [done|].
  apply all_digits_string_of_uint.
Qed.

(** The decimal text of an integer holds digits and, in front of a
    negative one, a minus sign. *)
Lemma occurs_str c n :
  is_digit c = false -> c <> "-"%char -> occurs c (str n) = false.
Proof.
  intros Hc Hminus. destruct (Z_lt_le_dec n 0) as [Hneg|Hpos].
  - destruct n as [|p|p]; [lia|lia|].
    change (str (Z.neg p))
      with (String "-" (NilZero.string_of_uint (Pos.to_uint p))).
    cbn [occurs].
    replace (Ascii.eqb "-" c) with false
      by (symmetry; apply Ascii.eqb_neq; congruence).
    pose proof (DecimalPos.Unsigned.to_uint_nonnil p) as Hnil.
    unfold NilZero.string_of_uint.
    destruct (Pos.to_uint p) eqn:E; [done|..];
      rewrite <- E; by apply occurs_string_of_uint.
  - apply all_digits_occurs; [done|]. by apply all_digits_str.
Qed.

Lemma occurs_replace_same c new s :
  occurs c new = false -> occurs c (replace c new s) = false.
Proof.
  intros Hnew. induction s as [|x s IH]; [done|]. simpl.
  destruct (Ascii.eqb_spec x c) as [->|Hx].
  - by rewrite occurs_app, Hnew, IH.
  - simpl. rewrite IH, orb_false_r. by apply Ascii.eqb_neq.
Qed.

Lemma occurs_replace_other c d new s :
  d <> c -> occurs d new = false ->
  occurs d (replace c new s) = occurs d s.
Proof.
  intros Hdc Hnew. induction s as [|x s IH]; [done|]. simpl.
  destruct (Ascii.eqb_spec x c) as [->|Hx].
  - rewrite occurs_app, Hnew, IH. simpl.
    by destruct (Ascii.eqb_spec c d) as [->|_].
  - simpl. by rewrite IH.
Qed.

Lemma replace_comm c d nc nd s :
  c <> d -> occurs d nc = false -> occurs c nd = false ->
  replace c nc (replace d nd s) = replace d nd (replace c nc s).
Proof.
  intros Hcd Hnc Hnd.
  assert (Ecd : Ascii.eqb c d = false) by by apply Ascii.eqb_neq.
  assert (Edc : Ascii.eqb d c = false)
    by (apply Ascii.eqb_neq; congruence).
  induction s as [|x s IH]; [done|]. simpl.
  destruct (Ascii.eqb_spec x d) as [->|Hxd].
  - rewrite Edc. simpl. rewrite Ascii.eqb_refl, replace_app, IH.
    by rewrite (replace_absent c nc nd).
  - destruct (Ascii.eqb_spec x c) as [->|Hxc]; simpl.
    + rewrite Ascii.eqb_refl, replace_app, IH.
      by rewrite (replace_absent d nd nc).
    + apply Ascii.eqb_neq in Hxd, Hxc. by rewrite Hxd, Hxc, IH.
Qed.

Lemma str_no_placeholder n :
  occurs "a" (str n) = false /\ occurs "i" (str n) = false
  /\ occurs "/" (str n) = false.
Proof. repeat split; by apply occurs_str. Qed.

End BindingFacts.

(** X1. Binding removes the placeholder and nothing else: for every
    integer, [with_account] leaves no free account, leaves the index
    placeholder as it was, and a second [with_account] changes nothing;
    likewise for [with_index]. *)
Theorem with_account_with_index_bind (p : Path.t) (v w : Z) :
  (Path.has_variable_account (Path.with_account p v) = false
   /\ Path.has_variable_index (Path.with_account p v)
      = Path.has_variable_index p
   /\ Path.with_account (Path.with_account p v) w = Path.with_account p v)
  /\ (Path.has_variable_index (Path.with_index p v) = false
      /\ Path.has_variable_account (Path.with_index p v)
         = Path.has_variable_account p
      /\ Path.with_index (Path.with_index p v) w = Path.with_index p v).
Proof.
  destruct (str_no_placeholder v) as (Ha & Hi & _).
  unfold Path.has_variable_account, Path.has_variable_index,
    Path.with_account, Path.with_index. simpl. rewrite !find_occurs.
  split; (split; [by apply occurs_replace_same|]);
    (split; [by apply occurs_replace_other|]); f_equal;
    by apply replace_absent, occurs_replace_same.
Qed.

(** X2. The two bindings commute: binding the account then the index
    gives the same path as binding the index then the account. *)
Theorem with_account_with_index_commute (p : Path.t) (account index : Z) :
  Path.with_index (Path.with_account p account) index
  = Path.with_account (Path.with_index p index) account.
Proof.
  destruct (str_no_placeholder account) as (_ & Hi & _).
  destruct (str_no_placeholder index) as (Ha & _ & _).
  unfold Path.with_account, Path.with_index. simpl. f_equal.
  by apply replace_comm.
Qed.

Lemma parts_bound_account p account index y :
  Path.parts (Path.with_account p account) (Some index) y
  = Path.parts p (Some index) (Some account).
Proof.
  destruct (str_no_placeholder account) as (Ha & _ & _).
  unfold Path.parts, Path.with_account. simpl.
  by rewrite (replace_absent "a" (PyStr.str_opt y))
    by by apply occurs_replace_same.
Qed.

Lemma to_list_bound_account p account index y :
  Path.to_list (Path.with_account p account) (Some index) y
  = Path.to_list p (Some index) (Some account).
Proof. unfold Path.to_list. by rewrite parts_bound_account. Qed.

(** X3. Resolving a bound path is resolving the template: once the
    account is bound, [to_list(index)] ignores its account argument and
    returns what the template returns at that index and account; once
    both are bound, [to_list] ignores both arguments. *)
Theorem to_list_of_bound_path
    (p : Path.t) (account index : Z) (x y : option Z) :
  Path.to_list (Path.with_account p account) (Some index) y
  = Path.to_list p (Some index) (Some account)
  /\ Path.to_list (Path.with_index (Path.with_account p account) index) x y
     = Path.to_list p (Some index) (Some account).
Proof.
  split; [apply to_list_bound_account|].
  destruct (str_no_placeholder account) as (Ha & _ & _).
  destruct (str_no_placeholder index) as (Ha' & Hi' & _).
  unfold Path.to_list, Path.parts, Path.with_account, Path.with_index.
  simpl.
  assert (Hna : PyStr.occurs "a"
                  (PyStr.replace "i" (PyStr.str index)
                     (PyStr.replace "a" (PyStr.str account) (Path.path p)))
                = false).
  { rewrite occurs_replace_other by done. by apply occurs_replace_same. }
  rewrite (replace_absent "a" (PyStr.str_opt y)) by done.
  by rewrite (replace_absent "i" (PyStr.str_opt x))
    by by apply occurs_replace_same.
Qed.

(** ** Resolution of well-formed templates *)

Section ResolutionFacts.
Import PyStr.

Lemma lstrip_head x s : is_space x = false -> lstrip (String x s) = String x s.
Proof. intros Hx. simpl. by rewrite Hx. Qed.

Lemma rev_append_head_digit s acc :
  all_digits s = true -> s <> "" ->
  exists x t, rev_append s acc = String x t /\ is_digit x = true.
Proof.
  revert acc. induction s as [|x s IH]; intros acc Hs Hne; [done|].
  simpl in Hs. apply andb_true_iff in Hs as [Hx Hs]. simpl.
  destruct s as [|y s]; [by exists x, acc|].
  by apply IH.
Qed.

Lemma is_digit_not_space x : is_digit x = true -> is_space x = false.
Proof.
  unfold is_digit, is_space. intros Hx.
  destruct (9 <=? ord x) eqn:E1, (ord x <=? 13) eqn:E2,
    (ord x =? 32) eqn:E3, (ord x =? 133) eqn:E4, (ord x =? 160) eqn:E5;
    simpl; try done; lia.
Qed.

(** [int()] reads a minus sign in front of a run of digits. *)
Lemma int_minus_digits s :
  all_digits s = true -> s <> "" ->
  PyStr.int (String "-" s) = option_map Z.opp (digits s 0 false).
Proof.
  intros Hs Hne. unfold PyStr.int, strip.
  rewrite (lstrip_head "-" s) by done.
  unfold rev at 2. simpl rev_append.
  destruct (rev_append_head_digit s "-" Hs Hne) as (x & t & E & Hx).
  rewrite E, lstrip_head by by apply is_digit_not_space.
  rewrite <- E. change (rev_append s "-") with (rev (String "-" s)).
  by rewrite rev_rev.
Qed.

(** Printing then reading an integer gives it back, whatever its sign. *)
Lemma int_str_any n : PyStr.int (str n) = Some n.
Proof.
  destruct (Z_lt_le_dec n 0) as [Hneg|Hpos]; [|by apply int_str].
  destruct n as [|p|p]; [lia|lia|].
  change (str (Z.neg p))
    with (String "-" (NilZero.string_of_uint (Pos.to_uint p))).
  pose proof (DecimalPos.Unsigned.to_uint_nonnil p) as Hnil.
  assert (E : NilZero.string_of_uint (Pos.to_uint p)
              = NilEmpty.string_of_uint (Pos.to_uint p)).
  { unfold NilZero.string_of_uint. by destruct (Pos.to_uint p). }
  rewrite E, int_minus_digits.
  - rewrite digits_string_of_uint by by left.
    rewrite uint_value_of_uint. unfold Z.of_uint.
    rewrite DecimalPos.Unsigned.of_to. done.
  - apply all_digits_string_of_uint.
  - by destruct (Pos.to_uint p).
Qed.

Lemma endswith_quote_str n : endswith "'" (str n) = false.
Proof.
  destruct (endswith "'" (str n)) eqn:E; [|done].
  apply endswith_occurs in E. by rewrite occurs_str in E.
Qed.

Lemma derivation_index_str n : Path.derivation_index (str n) = inr n.
Proof.
  unfold Path.derivation_index, Path.int.
  by rewrite endswith_quote_str, int_str_any.
Qed.

Lemma derivation_index_str_quote n :
  Path.derivation_index (str n +:+ "'") = inr (HARDENED_INDEX + n).
Proof.
  unfold Path.derivation_index, Path.int.
  by rewrite endswith_app_quote, drop_last_app_quote, int_str_any.
Qed.

Lemma derivation_index_digits d :
  all_digits d = true -> d <> "" ->
  Path.derivation_index d = inr (default 0 (PyStr.int d)).
Proof.
  intros Hd Hne. unfold Path.derivation_index, Path.int.
  rewrite endswith_digits by done.
  destruct (literal_digits d Hd Hne) as [v Hv].
  unfold Path.literal in Hv. rewrite endswith_digits in Hv by done.
  by rewrite Hv.
Qed.

Lemma derivation_index_digits_quote d :
  all_digits d = true -> d <> "" ->
  Path.derivation_index (d +:+ "'")
  = inr (HARDENED_INDEX + default 0 (PyStr.int d)).
Proof.
  intros Hd Hne. unfold Path.derivation_index, Path.int.
  rewrite endswith_app_quote, drop_last_app_quote.
  destruct (literal_digits d Hd Hne) as [v Hv].
  unfold Path.literal in Hv. rewrite endswith_digits in Hv by done.
  by rewrite Hv.
Qed.

Lemma digits_not_placeholder d :
  all_digits d = true ->
  String.eqb d "a" = false /\ String.eqb d "i" = false.
Proof.
  intros Hd. split.
  - destruct (String.eqb_spec d "a") as [->|]; [by vm_compute in Hd|done].
  - destruct (String.eqb_spec d "i") as [->|]; [by vm_compute in Hd|done].
Qed.

Lemma segment_ok_cases segment :
  Path.segment_ok segment = true ->
  exists body,
    (segment = body \/ segment = body +:+ "'")
    /\ endswith "'" body = false
    /\ (body = "a" \/ body = "i" \/ (all_digits body = true /\ body <> "")).
Proof.
  intros Hok. unfold Path.segment_ok in Hok.
  set (body := if endswith "'" segment then drop_last segment else segment)
    in Hok.
  assert (Hbody : body = "a" \/ body = "i"
                  \/ (all_digits body = true /\ body <> "")).
  { apply orb_true_iff in Hok as [Hb|Hb].
    - apply orb_true_iff in Hb as [Hb|Hb]; apply String.eqb_eq in Hb; auto.
    - apply andb_true_iff in Hb as [Hd Hne]. right. right. split; [done|].
      intros E. by rewrite E in Hne. }
  exists body. split; [|split; [|done]].
  - unfold body. destruct (endswith "'" segment) eqn:E; [right|by left].
    by apply endswith_drop_last.
  - destruct Hbody as [->|[->|[Hd _]]]; [done|done|].
    by apply endswith_digits.
Qed.

(** A well-formed segment, its placeholders replaced by integers, yields
    the index [segment_index]. *)
Lemma segment_ok_derivation_index segment account index :
  Path.segment_ok segment = true ->
  Path.derivation_index
    (replace "i" (str index) (replace "a" (str account) segment))
  = inr (Path.segment_index account index segment).
Proof.
  intros Hok.
  destruct (segment_ok_cases segment Hok)
    as (body & Hseg & Hq & Hbody).
  assert (Hstr : replace "i" (str index) (str account) = str account)
    by by apply replace_absent, occurs_str.
  unfold Path.segment_index.
  destruct Hseg as [->| ->].
  - rewrite Hq.
    destruct Hbody as [->|[->|[Hd Hne]]].
    + simpl. rewrite append_nil_r, Hstr.
      by apply derivation_index_str.
    + simpl. rewrite append_nil_r. by apply derivation_index_str.
    + destruct (digits_not_placeholder body Hd) as [-> ->].
      rewrite !(replace_absent _ _ body) by by apply all_digits_occurs.
      by apply derivation_index_digits.
  - rewrite endswith_app_quote, drop_last_app_quote, !replace_app.
    destruct Hbody as [->|[->|[Hd Hne]]].
    + simpl. rewrite append_nil_r, Hstr.
      by apply derivation_index_str_quote.
    + simpl. rewrite append_nil_r. by apply derivation_index_str_quote.
    + destruct (digits_not_placeholder body Hd) as [-> ->].
      rewrite !(replace_absent _ _ body) by by apply all_digits_occurs.
      simpl. by apply derivation_index_digits_quote.
Qed.

Lemma parts_template p account index :
  Path.parts (Path.Path p) (Some index) (Some account)
  = (fun segment =>
       replace "i" (str index) (replace "a" (str account) segment))
    <$> tail (split "/" p).
Proof.
  unfold Path.parts. simpl.
  rewrite !split_replace, !tail_fmap;
    [|done|by apply occurs_str|done|by apply occurs_str].
  by rewrite <- list_fmap_compose.
Qed.

Lemma to_list_loop_fmap (g : string -> string) (f : string -> Z)
    segments acc :
  Forall (fun segment => Path.derivation_index (g segment)
                         = inr (f segment)) segments ->
  Path.to_list_loop (g <$> segments) acc = inr (acc ++ (f <$> segments)).
Proof.
  intros Hall. revert acc.
  induction Hall as [|segment segments Hp _ IH]; intros acc; csimpl.
  - by rewrite app_nil_r.
  - rewrite Hp. simpl. rewrite IH, <- app_assoc. done.
Qed.

Lemma digits_nonneg s acc b v :
  digits s acc b = Some v -> 0 <= acc -> 0 <= v.
Proof.
  revert acc b. induction s as [|x s IH]; intros acc b; simpl.
  - destruct b; [|done]. intros [= <-]. done.
  - destruct (is_digit x) eqn:Ex.
    + intros Hv Hacc. eapply IH; [exact Hv|].
      unfold is_digit in Ex. unfold digit_value. lia.
    + destruct (Ascii.eqb x "_" && b); [|done]. apply IH.
Qed.

Lemma int_digits_nonneg d :
  all_digits d = true -> 0 <= default 0 (PyStr.int d).
Proof.
  intros Hd. rewrite int_digits by done.
  destruct (digits d 0 false) as [v|] eqn:E; simpl; [|done].
  by eapply digits_nonneg.
Qed.

Lemma segment_index_range segment account index :
  Path.segment_ok segment = true -> Path.segment_small segment = true ->
  0 <= account < 2 ^ 31 -> 0 <= index < 2 ^ 31 ->
  0 <= Path.segment_index account index segment < 2 ^ 32.
Proof.
  intros Hok Hsmall Ha Hi.
  destruct (segment_ok_cases segment Hok) as (body & Hseg & Hq & Hbody).
  unfold Path.segment_index. unfold Path.segment_small in Hsmall.
  assert (Hv : 0 <= (if String.eqb body "a" then account
                     else if String.eqb body "i" then index
                     else default 0 (PyStr.int body)) < 2 ^ 31).
  { destruct Hbody as [->|[->|[Hd Hne]]]; [simpl; lia|simpl; lia|].
    destruct (digits_not_placeholder body Hd) as [-> ->].
    pose proof (int_digits_nonneg body Hd).
    destruct Hseg as [->| ->].
    - rewrite Hq in Hsmall. lia.
    - rewrite endswith_app_quote, drop_last_app_quote in Hsmall. lia. }
  destruct Hseg as [->| ->].
  - rewrite Hq. lia.
  - rewrite endswith_app_quote, drop_last_app_quote.
    unfold HARDENED_INDEX. lia.
Qed.

Lemma to_list_template p account index :
  Path.template_ok p = true ->
  Path.to_list (Path.Path p) (Some index) (Some account)
  = inr (Path.segment_index account index <$> tail (split "/" p)).
Proof.
  intros Hok. unfold Path.to_list.
  rewrite parts_template.
  rewrite (to_list_loop_fmap _ (Path.segment_index account index)); [done|].
  apply Forall_forall. intros segment Hin.
  apply segment_ok_derivation_index.
  unfold Path.template_ok in Hok. rewrite forallb_forall in Hok.
  by apply Hok, list_elem_of_In.
Qed.

Lemma split_nosep sep s : occurs sep s = false -> split sep s = [s].
Proof.
  intros Hs. rewrite <- (append_nil_r s) at 1.
  rewrite split_app_nosep by done. simpl. by rewrite append_nil_r.
Qed.

End ResolutionFacts.

(** X4. On a well-formed template (every segment behind the leading one is
    a placeholder or a run of digits, with or without the closing quote)
    [to_list] succeeds at every index and account, negative ones included
    (the sign is not checked), and returns one index per segment: the
    number bound to the placeholder or the literal of the segment, plus
    2^31 under a quote. *)
Theorem to_list_well_formed (p : string) (account index : Z) :
  Path.template_ok p = true ->
  Path.to_list (Path.Path p) (Some index) (Some account)
  = inr (Path.segment_index account index <$> tail (PyStr.split "/" p)).
Proof.
  intros Hok. unfold Path.to_list.
  rewrite parts_template.
  rewrite (to_list_loop_fmap _ (Path.segment_index account index)); [done|].
  apply Forall_forall. intros segment Hin.
  apply segment_ok_derivation_index.
  unfold Path.template_ok in Hok. rewrite forallb_forall in Hok.
  by apply Hok, list_elem_of_In.
Qed.

Lemma to_list_well_formed_witness :
  Path.template_ok "m/44'/0'/a'/0/i" = true
  /\ Path.to_list (Path.Path "m/44'/0'/a'/0/i") (Some 5) (Some (-2))
     = inr (Path.segment_index (-2) 5 <$> ["44'"; "0'"; "a'"; "0"; "i"]).
Proof.
  split; [reflexivity|].
  apply (to_list_well_formed "m/44'/0'/a'/0/i" (-2) 5); reflexivity.
Defined.

Lemma occurs_slash_str_opt (x : option Z) :
  PyStr.occurs "/" (PyStr.str_opt x) = false.
Proof. destruct x as [n|]; [by apply occurs_str|done]. Qed.

Lemma split_leading s rest :
  PyStr.occurs "/" s = false ->
  tail (PyStr.split "/" (s +:+ "/" +:+ rest)) = PyStr.split "/" rest.
Proof.
  intros Hs. rewrite split_app_nosep by done.
  change ("/" +:+ rest) with (String "/" rest). simpl.
  done.
Qed.

(** X5. [to_list] never reads the text in front of the first slash: two
    paths that differ in that text only resolve alike, and a path without
    any slash resolves to the empty list, whatever it holds. *)
Theorem to_list_ignores_leading_segment
    (s1 s2 rest : string) (index account : option Z) :
  PyStr.occurs "/" s1 = false -> PyStr.occurs "/" s2 = false ->
  Path.to_list (Path.Path (s1 +:+ "/" +:+ rest)) index account
  = Path.to_list (Path.Path (s2 +:+ "/" +:+ rest)) index account
  /\ Path.to_list (Path.Path s1) index account = inr [].
Proof.
  intros H1 H2.
  assert (Hsub : forall s,
    PyStr.occurs "/" s = false ->
    PyStr.occurs "/"
      (PyStr.replace "i" (PyStr.str_opt index)
         (PyStr.replace "a" (PyStr.str_opt account) s)) = false).
  { intros s Hs.
    rewrite !occurs_replace_other; auto using occurs_slash_str_opt. }
  unfold Path.to_list, Path.parts. simpl. split.
  - rewrite !replace_app. simpl.
    change (String "/" ?r) with ("/" +:+ r).
    by rewrite !split_leading by by apply Hsub.
  - by rewrite split_nosep by by apply Hsub.
Qed.

Lemma to_list_ignores_leading_segment_witness :
  Path.to_list (Path.Path "m/0'/7") None None
  = Path.to_list (Path.Path "xpub/0'/7") None None
  /\ Path.to_list (Path.Path "garbage") None None = inr [].
Proof.
  exact (to_list_ignores_leading_segment "m" "xpub" "0'/7" None None
           eq_refl eq_refl).
Defined.

Lemma descriptors_small :
  forallb
    (fun entry =>
       Path.template_ok entry.1
       && forallb Path.segment_small (tail (PyStr.split "/" entry.1)))
    descriptors = true.
Proof. by vm_compute. Qed.

(** X6. Every template of the table resolves, at every index and account
    in [[0, 2^31)], to derivation indexes of 32 bits: each lies in
    [[0, 2^32)]. *)
Theorem descriptors_resolve_to_valid_indexes
    (p : string) (types : list ScriptType) (account index : Z) :
  In (p, types) descriptors ->
  0 <= account < 2 ^ 31 -> 0 <= index < 2 ^ 31 ->
  exists indexes,
    Path.to_list (Path.Path p) (Some index) (Some account) = inr indexes
    /\ Forall (fun n => 0 <= n < 2 ^ 32) indexes.
Proof.
  intros Hin Ha Hi. pose proof descriptors_small as Hok.
  rewrite forallb_forall in Hok. specialize (Hok _ Hin). simpl in Hok.
  apply andb_true_iff in Hok as [Hok Hsmall].
  eexists. split; [by apply to_list_template|].
  apply Forall_fmap, Forall_forall. intros segment Hseg. simpl.
  rewrite forallb_forall in Hsmall.
  unfold Path.template_ok in Hok. rewrite forallb_forall in Hok.
  apply list_elem_of_In in Hseg.
  by apply segment_index_range; auto.
Qed.

Lemma descriptors_resolve_to_valid_indexes_witness :
  exists indexes,
    Path.to_list (Path.Path "m/84'/0'/2147483644'/1/i")
      (Some 2147483647) (Some 0) = inr indexes
    /\ Forall (fun n => 0 <= n < 2 ^ 32) indexes.
Proof.
  apply (descriptors_resolve_to_valid_indexes
           "m/84'/0'/2147483644'/1/i" [SEGWIT] 0 2147483647).
  - do 20 right. by left.
  - lia.
  - lia.
Defined.

(** ** One search, call after call *)

Section SearchStepFacts.
Context `{Capabilities}.
Import DescriptorScriptIterator.
Variable master_key : BIP32.

Lemma next_script_on_track self r self' :
  0 <= max_index self -> 0 <= max_account self -> on_track self ->
  next_script self master_key = inr (r, self') ->
  on_track self' /\ same_search self self'.
Proof.
  intros Hmi Hma Hc Hn. destruct r as [r|].
  - apply next_script_some in Hn as (Hi & Ha & _ & ->).
    split; [|done]. cbv zeta.
    set (c := Diagonal.advance _ _ (cursor self)).
    unfold on_track.
    change (cursor (set_cursor self c.1 c.2)) with (c.1, c.2).
    change (max_index (set_cursor self c.1 c.2)) with (max_index self).
    change (max_account (set_cursor self c.1 c.2)) with (max_account self).
    rewrite <- surjective_pairing. subst c.
    destruct Hc as [Hc|Hc].
    + destruct (decide (cursor self = (max_index self, max_account self)))
        as [E|Hne].
      * right. rewrite E. by apply advance_last.
      * left. by apply advance_in_grid.
    + unfold cursor in Hc. injection Hc as Hi' Ha'. lia.
  - by apply next_script_null in Hn as [-> _].
Qed.

Lemma after_on_track n self :
  0 <= max_index self -> 0 <= max_account self -> on_track self ->
  on_track (after n self master_key)
  /\ same_search self (after n self master_key).
Proof.
  revert self. induction n as [|n IH]; intros self Hmi Hma Hc; [done|].
  simpl. destruct (next_script self master_key) as [e|[r self']] eqn:E.
  - by apply IH.
  - destruct (next_script_on_track self r self' Hmi Hma Hc E)
      as (Hc' & Hp & Ht & Hmi' & Hma' & Htot).
    destruct (IH self') as (Hc'' & Hp' & Ht' & Hmi'' & Hma'' & Htot');
      [lia|lia|done|].
    split; [done|]. unfold same_search. repeat split; congruence.
Qed.

Lemma outcomes_after n m self :
  outcomes (n + m) self master_key
  = outcomes n self master_key
    ++ outcomes m (after n self master_key) master_key.
Proof.
  revert self. induction n as [|n IH]; intros self; [done|]. simpl.
  destruct (next_script self master_key) as [e|[r self']];
    simpl; by rewrite IH.
Qed.

End SearchStepFacts.

(** X7. A non-null result of [DescriptorScriptIterator.next_script] is
    the script built, for the type of the search, from the key derived at
    the indexes that the template of the search gives at the cursor
    [(index, account)]; it comes with the template bound to that account
    and with the type; the cursor was within the bounds, and the call
    assigns the cursor only. *)
Theorem next_script_derives_at_cursor `{Capabilities}
    (self self' : DescriptorScriptIterator.t) (master_key : BIP32)
    (r : script_result) :
  DescriptorScriptIterator.next_script self master_key
  = inr (Some r, self') ->
  let index := DescriptorScriptIterator.index self in
  let account := DescriptorScriptIterator.account self in
  let path := DescriptorScriptIterator.path self in
  let script_type := DescriptorScriptIterator.script_type self in
  (exists indexes,
     Path.to_list path (Some index) (Some account) = inr indexes
     /\ r = (build_output_script script_type
               (get_pubkey_from_path master_key indexes),
             Path.with_account path account, script_type))
  /\ index <= DescriptorScriptIterator.max_index self
  /\ account <= DescriptorScriptIterator.max_account self
  /\ DescriptorScriptIterator.path self' = path
  /\ DescriptorScriptIterator.script_type self' = script_type
  /\ DescriptorScriptIterator.max_index self'
     = DescriptorScriptIterator.max_index self
  /\ DescriptorScriptIterator.max_account self'
     = DescriptorScriptIterator.max_account self
  /\ DescriptorScriptIterator.total_scripts self'
     = DescriptorScriptIterator.total_scripts self.
Proof.
  intros Hn. simpl.
  apply next_script_some in Hn as (Hi & Ha & Hat & ->).
  split; [|by repeat split].
  unfold DescriptorScriptIterator.script_at,
    DescriptorScriptIterator.cursor in Hat. simpl in Hat.
  rewrite to_list_bound_account in Hat.
  destruct (Path.to_list _ _ _) as [e|indexes]; [done|].
  exists indexes. split; [done|]. by injection Hat.
Qed.

Lemma next_script_derives_at_cursor_witness :
  let self :=
    DescriptorScriptIterator.__init__
      (Path.Path "m/44'/0'/a'/0/i") LEGACY 3 2 in
  exists r self',
    @DescriptorScriptIterator.next_script sample_capabilities self tt
    = inr (Some r, self')
    /\ exists indexes,
         Path.to_list (Path.Path "m/44'/0'/a'/0/i") (Some 0) (Some 0)
         = inr indexes
         /\ r = (@build_output_script sample_capabilities LEGACY
                   (@get_pubkey_from_path sample_capabilities tt indexes),
                 Path.with_account (Path.Path "m/44'/0'/a'/0/i") 0, LEGACY).
Proof.
  cbv zeta.
  destruct (@DescriptorScriptIterator.next_script sample_capabilities
              (DescriptorScriptIterator.__init__
                 (Path.Path "m/44'/0'/a'/0/i") LEGACY 3 2) tt)
    as [e|[[r|] self']] eqn:E; [by vm_compute in E| |by vm_compute in E].
  exists r, self'. split; [reflexivity|].
  exact (proj1 (@next_script_derives_at_cursor sample_capabilities
                  _ _ tt r E)).
Defined.

(** X8. The cursor of a search built with bounds that are not negative
    never leaves its track: after any number of calls, raising ones
    included, [0 <= index <= max_index] and
    [0 <= account <= max_account + 1], and the account is behind its
    bound at the cell [(max_index, max_account + 1)] only; the path, the
    type, the bounds and [total_scripts] are those of the construction. *)
Theorem next_script_cursor_in_bounds `{Capabilities}
    (path : Path.t) (script_type : ScriptType) (max_index max_account : Z)
    (master_key : BIP32) (n : nat) :
  0 <= max_index -> 0 <= max_account ->
  let self0 :=
    DescriptorScriptIterator.__init__ path script_type max_index
      max_account in
  let self := DescriptorScriptIterator.after n self0 master_key in
  0 <= DescriptorScriptIterator.index self
    <= DescriptorScriptIterator.max_index self
  /\ 0 <= DescriptorScriptIterator.account self
       <= DescriptorScriptIterator.max_account self + 1
  /\ (DescriptorScriptIterator.account self
      = DescriptorScriptIterator.max_account self + 1 ->
      DescriptorScriptIterator.index self
      = DescriptorScriptIterator.max_index self)
  /\ DescriptorScriptIterator.path self = path
  /\ DescriptorScriptIterator.script_type self = script_type
  /\ DescriptorScriptIterator.max_index self
     = DescriptorScriptIterator.max_index self0
  /\ DescriptorScriptIterator.max_account self
     = DescriptorScriptIterator.max_account self0
  /\ DescriptorScriptIterator.total_scripts self
     = DescriptorScriptIterator.total_scripts self0.
Proof.
  intros Hmi Hma self0 self.
  assert (Hmi0 : 0 <= DescriptorScriptIterator.max_index self0)
    by (simpl; by destruct (Path.has_variable_index path)).
  assert (Hma0 : 0 <= DescriptorScriptIterator.max_account self0)
    by (simpl; by destruct (Path.has_variable_account path)).
  destruct (after_on_track master_key n self0 Hmi0 Hma0)
    as (Hc & Hp & Ht & Hmi' & Hma' & Htot).
  { left. unfold Diagonal.in_grid. simpl.
    destruct (Path.has_variable_index path),
      (Path.has_variable_account path); lia. }
  fold self in Hc, Hp, Ht, Hmi', Hma', Htot.
  change (DescriptorScriptIterator.path self0) with path in Hp.
  change (DescriptorScriptIterator.script_type self0) with script_type in Ht.
  clearbody self self0.
  split; [|split; [|split; [|by repeat split]]].
  all: destruct Hc as [[Hi Ha]|Hc];
    unfold DescriptorScriptIterator.cursor in *; simpl in *;
    [|injection Hc as Hi Ha]; lia.
Qed.

Lemma next_script_cursor_in_bounds_witness :
  let self :=
    @DescriptorScriptIterator.after sample_capabilities 6%nat
      (DescriptorScriptIterator.__init__
         (Path.Path "m/44'/0'/a'/0/i") LEGACY 2 1) tt in
  0 <= DescriptorScriptIterator.index self
    <= DescriptorScriptIterator.max_index self
  /\ 0 <= DescriptorScriptIterator.account self
       <= DescriptorScriptIterator.max_account self + 1.
Proof.
  cbv zeta.
  destruct (@next_script_cursor_in_bounds sample_capabilities
              (Path.Path "m/44'/0'/a'/0/i") LEGACY 2 1 tt 6%nat)
    as (Hi & Ha & _); [lia|lia|].
  split; [exact Hi|exact Ha].
Defined.

(** X9. Null is final for a search: when a call of
    [DescriptorScriptIterator.next_script] returns null, the cursor is
    out of the bounds, the iterator is left as it was, and every later
    call returns null again and leaves it so. *)
Theorem next_script_null_is_final `{Capabilities}
    (self self' : DescriptorScriptIterator.t) (master_key : BIP32) :
  DescriptorScriptIterator.next_script self master_key = inr (None, self') ->
  self' = self
  /\ (DescriptorScriptIterator.index self
        > DescriptorScriptIterator.max_index self
      \/ DescriptorScriptIterator.account self
           > DescriptorScriptIterator.max_account self)
  /\ forall n,
       DescriptorScriptIterator.outcomes n self' master_key
       = replicate n (Ok None)
       /\ DescriptorScriptIterator.after n self' master_key = self.
Proof.
  intros Hn. apply next_script_null in Hn as [-> Hout].
  split; [done|]. split; [lia|]. intros n. split.
  - by apply outcomes_exhausted.
  - induction n as [|n IH]; [done|]. simpl.
    by rewrite (next_script_exhausted master_key self Hout).
Qed.

Lemma next_script_null_is_final_witness :
  let self :=
    DescriptorScriptIterator.__init__
      (Path.Path "m/44'/0'/a'/0/i") LEGACY 2 (-1) in
  @DescriptorScriptIterator.outcomes sample_capabilities 3%nat self tt
  = [Ok None; Ok None; Ok None].
Proof.
  cbv zeta.
  refine (proj1 (proj2 (proj2
    (@next_script_null_is_final sample_capabilities
       (DescriptorScriptIterator.__init__
          (Path.Path "m/44'/0'/a'/0/i") LEGACY 2 (-1)) _ tt _)) 3%nat)).
  reflexivity.
Defined.

(** ** The scheduler, call after call *)

Section SchedulerRunFacts.
Context `{Capabilities}.
Import ScriptIterator.

Lemma to_list_loop_raises parts acc e :
  Path.to_list_loop parts acc = inl e -> e = ValueError.
Proof.
  revert acc. induction parts as [|part parts IH]; intros acc; simpl.
  - unfold Ok. congruence.
  - destruct (Path.derivation_index part) as [e'|n] eqn:E; simpl.
    + intros [= <-]. by eapply derivation_index_raises.
    + apply IH.
Qed.

Lemma search_raises d mk e :
  DescriptorScriptIterator.next_script d mk = inl e -> e = ValueError.
Proof.
  unfold DescriptorScriptIterator.next_script.
  destruct (_ || _); [unfold Ok; congruence|].
  destruct (Path.to_list _ _ _) as [e'|l] eqn:E; simpl.
  - intros [= <-]. by eapply to_list_loop_raises.
  - unfold Ok. congruence.
Qed.

(** No poll fails in the removal: the index that reads a search is the
    index that deletes it. *)
Lemma delitem_after_getitem {A} (l : list A) (i : Z) (x y : A) :
  PyList.getitem l i = inr x ->
  exists l', PyList.delitem (PyList.mutated l i y) i = inr l'.
Proof.
  unfold PyList.getitem, PyList.delitem, PyList.mutated, bind.
  destruct (PyList.position (length l) i) as [e|j] eqn:E; [done|].
  intros _. rewrite length_insert, E. by eexists.
Qed.

(** A poll that raises leaves the iterator as it is. *)
Lemma poll_raises self e self' :
  _next_descriptor_script self = (inl e, self') -> self' = self.
Proof.
  unfold _next_descriptor_script.
  destruct (PyList.getitem (descriptors self) (index self))
    as [e1|d] eqn:Eg; [by intros [= _ <-]|].
  destruct (DescriptorScriptIterator.next_script d (master_key self))
    as [e2|[[r|] d']]; [by intros [= _ <-]| |].
  - by destruct (_ >=? _).
  - destruct (delitem_after_getitem _ _ _ d' Eg) as [l' ->].
    by destruct (_ >=? _).
Qed.

(** A call that raises stops on a poll that raises. *)
Lemma next_script_loop_raises fuel self e self' :
  next_script_loop fuel self = Some (inl e, self') ->
  descriptors self' <> []
  /\ _next_descriptor_script self' = (inl e, self').
Proof.
  revert self. induction fuel as [|fuel IH]; intros self; [done|].
  simpl. destruct (_ >? 0) eqn:Elen; [|by intros [= <- <-]].
  destruct (_next_descriptor_script self) as [[e1|[r|]] self1] eqn:Ep.
  - intros [= <- <-]. pose proof (poll_raises _ _ _ Ep) as ->.
    split; [|done]. intros E. by rewrite E in Elen.
  - by intros [= <- <-].
  - apply IH.
Qed.

Lemma next_script_stuck self e :
  descriptors self <> [] ->
  _next_descriptor_script self = (inl e, self) ->
  next_script self = Some (inl e, self).
Proof.
  intros Hne Hp. unfold next_script. simpl. rewrite Hp.
  destruct (descriptors self) as [|d ds] eqn:E; [done|].
  assert (Hlen : (Z.of_nat (length (d :: ds)) >? 0) = true)
    by (apply Z.gtb_lt; simpl length; lia).
  by rewrite Hlen.
Qed.

Lemma outcomes_stuck n self e :
  descriptors self <> [] ->
  _next_descriptor_script self = (inl e, self) ->
  outcomes n self = replicate n (inl e).
Proof.
  intros Hne Hp. induction n as [|n IH]; [done|]. simpl.
  by rewrite (next_script_stuck self e Hne Hp), IH.
Qed.

(** A call returns null on an empty collection only. *)
Lemma next_script_loop_null fuel self self' :
  next_script_loop fuel self = Some (Ok None, self') ->
  descriptors self' = [].
Proof.
  revert self. induction fuel as [|fuel IH]; intros self; [done|].
  simpl. destruct (_ >? 0) eqn:Elen.
  - destruct (_next_descriptor_script self) as [[e1|[r|]] self1] eqn:Ep;
      [done|done|apply IH].
  - intros [= <-]. destruct (descriptors self) as [|d ds]; [done|].
    assert ((Z.of_nat (length (d :: ds)) >? 0) = true)
      by (apply Z.gtb_lt; simpl length; lia).
    congruence.
Qed.

Lemma outcomes_empty n (self : t) :
  descriptors self = [] -> outcomes n self = replicate n (Ok None).
Proof.
  intros E. induction n as [|n IH]; [done|]. simpl.
  by rewrite (next_script_empty self E), IH.
Qed.

(** From a valid cursor, a poll raises what the polled search raises. *)
Lemma poll_raises_ValueError self e self' :
  cursor_valid self -> descriptors self <> [] ->
  _next_descriptor_script self = (inl e, self') -> e = ValueError.
Proof.
  intros [Hnil|Hi] Hne; [done|].
  assert (Hlt : (Z.to_nat (index self) < length (descriptors self))%nat)
    by lia.
  destruct (lookup_lt_is_Some_2 _ _ Hlt) as [d Hd].
  pose proof (take_drop_middle _ _ _ Hd) as Hds. symmetry in Hds.
  assert (Hidx : index self
                 = Z.of_nat (length (take (Z.to_nat (index self))
                                       (descriptors self)))).
  { rewrite length_take. lia. }
  set (served := take (Z.to_nat (index self)) (descriptors self)) in *.
  set (waiting := drop (S (Z.to_nat (index self))) (descriptors self)) in *.
  destruct (DescriptorScriptIterator.next_script d (master_key self))
    as [e1|[[r|] d']] eqn:En.
  - unfold _next_descriptor_script.
    rewrite Hds, Hidx, getitem_middle, En. intros [= <- _].
    by eapply search_raises.
  - by rewrite (poll_result self served waiting d r d' Hds Hidx En).
  - pose proof (next_script_null _ _ _ En) as [-> _].
    by rewrite (poll_exhausted self served waiting d Hds Hidx En).
Qed.

Lemma next_script_loop_raises_ValueError fuel self e self' :
  cursor_valid self ->
  next_script_loop fuel self = Some (inl e, self') -> e = ValueError.
Proof.
  revert self. induction fuel as [|fuel IH]; intros self Hv; [done|].
  simpl. destruct (_ >? 0) eqn:Elen; [|by intros [= <- <-]].
  assert (Hne : descriptors self <> []).
  { intros E. rewrite E in Elen. done. }
  pose proof (poll_cursor_valid self Hv Hne) as Hv'.
  destruct (_next_descriptor_script self) as [[e1|[r|]] self1] eqn:Ep;
    simpl in Hv'.
  - intros [= <- <-].
    exact (poll_raises_ValueError self e1 self1 Hv Hne Ep).
  - by intros [= <- <-].
  - by apply IH.
Qed.

End SchedulerRunFacts.

(** X10. Null is final for the scheduler: when a call of
    [ScriptIterator.next_script] returns null, the collection of searches
    is empty, and every later call returns null again. *)
Theorem scheduler_null_is_final `{Capabilities}
    (self self' : ScriptIterator.t) :
  ScriptIterator.next_script self = Some (Ok None, self') ->
  ScriptIterator.descriptors self' = []
  /\ forall n, ScriptIterator.outcomes n self' = replicate n (Ok None).
Proof.
  intros Hn. apply next_script_loop_null in Hn.
  split; [done|]. intros n. by apply outcomes_empty.
Qed.

Lemma scheduler_null_is_final_witness :
  let self := @ScriptIterator.__init__ sample_capabilities tt (-1) 0 in
  exists self',
    ScriptIterator.next_script self = Some (Ok None, self')
    /\ ScriptIterator.descriptors self' = []
    /\ ScriptIterator.outcomes 2 self' = [Ok None; Ok None].
Proof.
  cbv zeta.
  destruct (ScriptIterator.next_script
              (@ScriptIterator.__init__ sample_capabilities tt (-1) 0))
    as [[[e|[r|]] self']|] eqn:E; try (vm_compute in E; discriminate E).
  exists self'. split; [reflexivity|].
  destruct (@scheduler_null_is_final sample_capabilities _ _ E) as [Hd Ho].
  split; [exact Hd|exact (Ho 2%nat)].
Defined.

(** X11. An exception is final for the scheduler: a call of
    [ScriptIterator.next_script] that raises leaves the cursor on the
    search that raised, with the collection not empty, and every later
    call raises the same exception. *)
Theorem scheduler_exception_is_final `{Capabilities}
    (self self' : ScriptIterator.t) (e : exn) :
  ScriptIterator.next_script self = Some (inl e, self') ->
  ScriptIterator.descriptors self' <> []
  /\ ScriptIterator.next_script self' = Some (inl e, self')
  /\ forall n, ScriptIterator.outcomes n self' = replicate n (inl e).
Proof.
  intros Hn. apply next_script_loop_raises in Hn as [Hne Hp].
  split; [done|]. split; [by apply next_script_stuck|].
  intros n. by apply outcomes_stuck.
Qed.

Lemma scheduler_exception_is_final_witness :
  let broken :=
    DescriptorScriptIterator.__init__ (Path.Path "m/x") LEGACY 0 0 in
  let self := @ScriptIterator.Build sample_capabilities tt 0 [broken] 1 in
  exists self',
    ScriptIterator.next_script self = Some (inl ValueError, self')
    /\ ScriptIterator.outcomes 3 self'
       = [inl ValueError; inl ValueError; inl ValueError].
Proof.
  cbv zeta.
  destruct (ScriptIterator.next_script
              (@ScriptIterator.Build sample_capabilities tt 0
                 [DescriptorScriptIterator.__init__ (Path.Path "m/x")
                    LEGACY 0 0] 1))
    as [[[[|]|[r|]] self']|] eqn:E; try (vm_compute in E; discriminate E).
  exists self'. split; [reflexivity|].
  destruct (@scheduler_exception_is_final sample_capabilities _ _ _ E)
    as (_ & _ & Ho).
  exact (Ho 3%nat).
Defined.

(** X12. From a valid cursor the scheduler raises no [IndexError]: the
    only exception of a call of [ScriptIterator.next_script] is the
    [ValueError] of a template that does not resolve (the key derivation
    and the script construction are total functions here). *)
Theorem scheduler_raises_ValueError_only `{Capabilities}
    (self self' : ScriptIterator.t) (e : exn) :
  (ScriptIterator.descriptors self = []
   \/ 0 <= ScriptIterator.index self
      < Z.of_nat (length (ScriptIterator.descriptors self))) ->
  ScriptIterator.next_script self = Some (inl e, self') ->
  e = ValueError.
Proof.
  intros Hv Hn. by eapply next_script_loop_raises_ValueError.
Qed.

Lemma scheduler_raises_ValueError_only_witness :
  let broken :=
    DescriptorScriptIterator.__init__ (Path.Path "m/x") LEGACY 0 0 in
  let self := @ScriptIterator.Build sample_capabilities tt 0 [broken] 1 in
  0 <= ScriptIterator.index self
    < Z.of_nat (length (ScriptIterator.descriptors self))
  /\ exists e self',
       ScriptIterator.next_script self = Some (inl e, self')
       /\ e = ValueError.
Proof.
  cbv zeta.
  assert (Hv : 0 <= 0 < 1) by lia.
  split; [exact Hv|].
  destruct (ScriptIterator.next_script
              (@ScriptIterator.Build sample_capabilities tt 0
                 [DescriptorScriptIterator.__init__ (Path.Path "m/x")
                    LEGACY 0 0] 1))
    as [[[e|[r|]] self']|] eqn:E; try (vm_compute in E; discriminate E).
  exists e, self'. split; [reflexivity|].
  apply (@scheduler_raises_ValueError_only sample_capabilities
           (@ScriptIterator.Build sample_capabilities tt 0
              [DescriptorScriptIterator.__init__ (Path.Path "m/x")
                 LEGACY 0 0] 1) self' e); [right; exact Hv|exact E].
Defined.

(** ** The searches of the table, for any bounds *)

Section TableFacts.
Context `{Capabilities}.
Variable master_key : BIP32.

Local Abbreviation yields := (DescriptorScriptIterator.yields master_key).
Local Abbreviation bounds :=
  (fun d => (DescriptorScriptIterator.max_index d,
             DescriptorScriptIterator.max_account d)).

(** The bounds of the searches: the six templates with an account
    placeholder come first, the other templates have the index
    placeholder only. *)
Lemma searches_bounds max_index max_account :
  bounds <$> ScriptIterator.searches max_index max_account
  = replicate 6 (max_index, max_account) ++ replicate 21 (max_index, 0).
Proof. reflexivity. Qed.

Lemma searches_totals max_index max_account :
  DescriptorScriptIterator.total_scripts
    <$> ScriptIterator.searches max_index max_account
  = replicate 6 ((max_index + 1) * (max_account + 1))
    ++ replicate 21 ((max_index + 1) * (0 + 1)).
Proof. reflexivity. Qed.

(** A fresh search returns one result per cell of its grid, none when a
    bound is negative. *)
Lemma fresh_search_yields (self : DescriptorScriptIterator.t) :
  DescriptorScriptIterator.index self = 0 ->
  DescriptorScriptIterator.account self = 0 ->
  DescriptorScriptIterator.total_scripts self
  = (DescriptorScriptIterator.max_index self + 1)
    * (DescriptorScriptIterator.max_account self + 1) ->
  DescriptorScriptIterator.resolves self ->
  exists rs,
    yields self rs
    /\ length rs = Diagonal.size (DescriptorScriptIterator.max_index self)
                     (DescriptorScriptIterator.max_account self).
Proof.
  intros Hi Ha Htot Hres. unfold Diagonal.size.
  destruct (decide (0 <= DescriptorScriptIterator.max_index self
                    /\ 0 <= DescriptorScriptIterator.max_account self))
    as [[Hmi Hma]|Hneg].
  - destruct (fresh_search_enumerates master_key self Hi Ha Hmi Hma Htot Hres)
      as (E & Hy & _ & _ & _ & Hlen).
    exists (snd <$> E). split; [done|].
    rewrite length_fmap, Hlen, Htot. f_equal. lia.
  - exists []. split.
    + constructor. apply next_script_exhausted. lia.
    + simpl. destruct (decide (0 <= DescriptorScriptIterator.max_index self)).
      * replace (Z.max 0 (DescriptorScriptIterator.max_account self + 1))
          with 0 by lia. lia.
      * replace (Z.max 0 (DescriptorScriptIterator.max_index self + 1))
          with 0 by lia. lia.
Qed.

Lemma searches_yield max_index max_account :
  exists F,
    Forall2 (fun d rs => yields d rs
                         /\ length rs = Diagonal.size (bounds d).1 (bounds d).2)
      (ScriptIterator.searches max_index max_account) F.
Proof.
  apply Forall_exists_Forall2, Forall_forall.
  intros d Hd. apply elem_of_searches in Hd as (p & ty & Hok & ->).
  apply fresh_search_yields; try done.
  intros index account Hi Ha. simpl in Hi, Ha.
  apply template_ok_resolves; [done|lia|lia].
Qed.

Lemma sum_list_with_fmap {A B} (f : B -> nat) (g : A -> B) (l : list A) :
  sum_list_with f (g <$> l) = sum_list_with (f ∘ g) l.
Proof. induction l as [|x l IH]; [done|]. csimpl. by rewrite IH. Qed.

Lemma sum_list_with_Forall2 {A B} (P : A -> B -> Prop) (f : A -> nat)
    (g : B -> nat) (l : list A) (k : list B) :
  (forall x y, P x y -> g y = f x) -> Forall2 P l k ->
  sum_list_with g k = sum_list_with f l.
Proof.
  intros HP. induction 1 as [|x y l k Hxy _ IH]; [done|]. simpl.
  by rewrite IH, (HP x y Hxy).
Qed.

Lemma searches_size max_index max_account :
  sum_list_with (fun d => Diagonal.size (bounds d).1 (bounds d).2)
    (ScriptIterator.searches max_index max_account)
  = Z.to_nat (Z.max 0 (max_index + 1) * (6 * Z.max 0 (max_account + 1) + 21)).
Proof.
  change (fun d => Diagonal.size (bounds d).1 (bounds d).2)
    with ((fun b : Z * Z => Diagonal.size b.1 b.2) ∘ bounds).
  rewrite <- sum_list_with_fmap, searches_bounds.
  cbn [replicate app sum_list_with fst snd]. unfold Diagonal.size.
  change (Z.max 0 (0 + 1)) with 1.
  set (u := Z.max 0 (max_index + 1)).
  set (v := Z.max 0 (max_account + 1)).
  assert (Hu : 0 <= u) by lia. assert (Hv : 0 <= v) by lia.
  rewrite Z.mul_1_r.
  replace (u * (6 * v + 21)) with (6 * (u * v) + 21 * u) by ring.
  assert (Hw : 0 <= u * v) by nia.
  generalize dependent (u * v). intros w Hw. lia.
Qed.

Lemma merge_sublist {A} (L : list (list A)) (l : list A) :
  l ∈ L -> sublist l (RoundRobin.merge L).
Proof.
  revert L. induction l as [|x l IH]; intros L Hl; [apply sublist_nil_l|].
  rewrite merge_unfold. change (x :: l) with ([x] ++ l).
  apply sublist_app.
  - assert (Hx : x ∈ RoundRobin.heads L).
    { apply list_elem_of_omap. by exists (x :: l). }
    apply list_elem_of_split in Hx as (l1 & l2 & ->).
    apply sublist_inserts_l. by apply sublist_skip, sublist_nil_l.
  - apply IH. apply list_elem_of_omap. by exists (x :: l).
Qed.

(** Successive calls on a search return its results, then null. *)
Lemma yields_outcomes self rs :
  yields self rs ->
  forall n,
    DescriptorScriptIterator.outcomes n self master_key
    = take n ((Ok ∘ Some <$> rs) ++ replicate n (Ok None)).
Proof.
  induction 1 as [self Hn|self r self' rs Hn _ IH]; intros n.
  - apply next_script_null in Hn as [_ Hout].
    rewrite outcomes_exhausted by done. simpl.
    by rewrite take_ge by (rewrite length_replicate; lia).
  - destruct n as [|n]; [done|]. simpl. rewrite Hn. f_equal.
    rewrite IH. symmetry. apply (take_padding _ _ n (S n)). lia.
Qed.

End TableFacts.

(** X13. The [total_scripts] of a [ScriptIterator] in closed form: the
    table gives 27 searches, 6 of them over accounts and indexes and 21
    over indexes only, so that for all bounds
    [total_scripts = (max_index + 1) * (6 * max_account + 27)]. *)
Theorem scheduler_total_scripts_closed_form `{Capabilities}
    (master_key : BIP32) (max_index max_account : Z) :
  let self := ScriptIterator.__init__ master_key max_index max_account in
  ScriptIterator.total_scripts self
  = (max_index + 1) * (6 * max_account + 27)
  /\ length (ScriptIterator.descriptors self) = 27%nat.
Proof.
  split; [|reflexivity].
  unfold ScriptIterator.__init__. cbn [ScriptIterator.total_scripts].
  change (map DescriptorScriptIterator.total_scripts
            (ScriptIterator.searches max_index max_account))
    with (DescriptorScriptIterator.total_scripts
            <$> ScriptIterator.searches max_index max_account).
  rewrite searches_totals. unfold PyList.sum.
  cbn [replicate app foldl]. ring.
Qed.

(** X14. For all bounds, negative ones included, no call of
    [ScriptIterator.next_script] on a fresh iterator raises (the key
    derivation and the script construction being total): the calls
    return [max(0, max_index + 1) * (6 * max(0, max_account + 1) + 21)]
    results, then null for ever. *)
Theorem scheduler_run_for_any_bounds `{Capabilities}
    (master_key : BIP32) (max_index max_account : Z) :
  let self := ScriptIterator.__init__ master_key max_index max_account in
  exists rs : list script_result,
    length rs
    = Z.to_nat (Z.max 0 (max_index + 1)
                * (6 * Z.max 0 (max_account + 1) + 21))
    /\ forall n,
         ScriptIterator.outcomes n self
         = take n ((Ok ∘ Some <$> rs) ++ replicate n (Ok None)).
Proof.
  intros self.
  destruct (searches_yield master_key max_index max_account) as [F HF].
  exists (RoundRobin.merge F). split.
  - rewrite length_merge, <- searches_size.
    eapply sum_list_with_Forall2; [|exact HF]. by intros d rs [_ ->].
  - intros n. apply (outcomes_merge n master_key self); [done|done|].
    eapply Forall2_impl; [exact HF|]. by intros d rs [Hy _].
Qed.

(** X15. The scheduler interleaves its searches (the key derivation and
    the script construction being total): the results of a fresh
    [ScriptIterator] are, for all bounds, the results that the searches of
    the table return when driven alone; every result of every search is
    returned exactly as often as the search returns it, and the results of
    one search come in the order of that search. *)
Theorem scheduler_interleaves_searches `{Capabilities}
    (master_key : BIP32) (max_index max_account : Z) :
  let self := ScriptIterator.__init__ master_key max_index max_account in
  exists (F : list (list script_result)) (rs : list script_result),
    Forall2 (DescriptorScriptIterator.yields master_key)
      (ScriptIterator.descriptors self) F
    /\ (forall n,
          ScriptIterator.outcomes n self
          = take n ((Ok ∘ Some <$> rs) ++ replicate n (Ok None)))
    /\ rs ≡ₚ concat F
    /\ Forall (fun l => sublist l rs) F.
Proof.
  intros self.
  destruct (searches_yield master_key max_index max_account) as [F HF].
  assert (HF' : Forall2 (DescriptorScriptIterator.yields master_key)
                  (ScriptIterator.descriptors self) F).
  { eapply Forall2_impl; [exact HF|]. by intros d rs [Hy _]. }
  exists F, (RoundRobin.merge F). split; [done|]. split; [|split].
  - intros n. by apply (outcomes_merge n master_key self).
  - apply merge_Permutation.
  - apply Forall_forall. intros l Hl. by apply merge_sublist.
Qed.

(** X16. For all bounds, negative ones included, no call of
    [DescriptorScriptIterator.next_script] on a fresh search over a
    well-formed template raises (the key derivation and the script
    construction being total): the calls return one result per cell of
    the grid of the search (none when one of its bounds is negative),
    then null for ever. *)
Theorem search_run_for_any_bounds `{Capabilities}
    (master_key : BIP32) (p : string) (script_type : ScriptType)
    (max_index max_account : Z) :
  Path.template_ok p = true ->
  let self :=
    DescriptorScriptIterator.__init__ (Path.Path p) script_type max_index
      max_account in
  exists rs : list script_result,
    length rs
    = Diagonal.size (DescriptorScriptIterator.max_index self)
        (DescriptorScriptIterator.max_account self)
    /\ forall n,
         DescriptorScriptIterator.outcomes n self master_key
         = take n ((Ok ∘ Some <$> rs) ++ replicate n (Ok None)).
Proof.
  intros Hok self.
  destruct (fresh_search_yields master_key self) as (rs & Hy & Hlen);
    try done.
  - intros index account Hi Ha. simpl in Hi, Ha.
    apply template_ok_resolves; [done|lia|lia].
  - exists rs. split; [done|]. by apply yields_outcomes.
Qed.

Lemma search_run_for_any_bounds_witness :
  let self := DescriptorScriptIterator.__init__ (Path.Path "m/0'/i") SEGWIT
                2 (-5) in
  exists rs : list script_result,
    length rs = 3%nat
    /\ forall n,
         @DescriptorScriptIterator.outcomes sample_capabilities n self tt
         = take n ((Ok ∘ Some <$> rs) ++ replicate n (Ok None)).
Proof.
  exact (@search_run_for_any_bounds sample_capabilities tt "m/0'/i" SEGWIT
           2 (-5) eq_refl).
Defined.
